(** * supabase-direct-migrate: a shallow embedding of [apply_migrations.go]

    The development follows the layout of the Go program:

    - [GoStrings]: the functions of Go's [strings] package the program calls
      ([Split], [SplitN], [TrimSpace], [ReplaceAll], [Join], [HasSuffix]) and
      the built-in comparison [<] on strings, over byte strings;
    - [sha256] and [hex]: the digest behind [computeHash];
    - the loader [loadLocalMigrations];
    - the ledger encoder [formatPostgresArray] and the array-literal reader of
      PostgreSQL it is written for;
    - the database handle as explicit state and the body of [main];
    - the vocabulary of the specification and sample inputs;
    - then the facts: about the string functions, the loader, the encoder
      and the run, with the properties of the specification (C1 to C10) next
      to the functions they are about, and the scenarios of the
      specification at the end.

    A Go [string] is an immutable sequence of bytes, so it is modelled as a
    list of 8-bit characters. *)

From Stdlib Require Import ZArith NArith List Ascii String Lia Permutation Sorted.
From stdpp Require Import base option list gmap strings.

Abbreviation gostring := (list ascii).

(** A string literal of the Go source as a byte string. *)
Definition str (s : string) : gostring := list_ascii_of_string s.

(* ===================================================================== *)
(** ** Package [strings] and string comparison *)
(* ===================================================================== *)

Module GoStrings.

(** [strings.HasPrefix(s, prefix)]. *)
Fixpoint HasPrefix (s prefix : gostring) {struct prefix} : bool :=
  match prefix, s with
  | [], _ => true
  | p :: prefix', c :: s' => Ascii.eqb c p && HasPrefix s' prefix'
  | _ :: _, [] => false
  end.

(** [strings.HasSuffix(s, suffix)]:
    [len(s) >= len(suffix) && s[len(s)-len(suffix):] == suffix]. *)
Definition HasSuffix (s suffix : gostring) : bool :=
  (length suffix <=? length s) &&
  bool_decide (drop (length s - length suffix) s = suffix).

(** [strings.Index(s, substr)]: the byte offset of the first occurrence of
    [substr] in [s]; Go's [-1] is [None]. *)
Fixpoint Index (s substr : gostring) : option nat :=
  if HasPrefix s substr then Some 0
  else match s with
       | [] => None
       | _ :: s' => S <$> Index s' substr
       end.

(** The loop of [strings.genSplit] for a non-empty separator:
    [[
      for i < n {
        m := Index(s, sep); if m < 0 { break }
        a[i] = s[:m]; s = s[m+len(sep):]; i++
      }
      a[i] = s
    ]]
    [iters] is the number of iterations still allowed ([n - i]). *)
Fixpoint split_loop (iters : nat) (s sep : gostring) : list gostring :=
  match iters with
  | O => [s]
  | S k =>
      match Index s sep with
      | None => [s]
      | Some m => take m s :: split_loop k (drop (m + length sep) s) sep
      end
  end.

(** [strings.Split(s, sep)] for a non-empty [sep] (the program's separator is
    a constant).  Go allows [Count(s, sep)] cuts, which is the number of
    times [Index] succeeds in the loop and never more than [len(s)]. *)
Definition Split (s sep : gostring) : list gostring :=
  split_loop (length s) s sep.

(** [strings.SplitN(s, sep, n)] for [n > 0] and a non-empty [sep]: at most
    [n] pieces, the last one being the unsplit remainder; Go caps [n] at
    [len(s) + 1]. *)
Definition SplitN (s sep : gostring) (n : nat) : list gostring :=
  match n with
  | O => []
  | S _ => split_loop (Nat.min n (length s + 1) - 1) s sep
  end.

(** [strings.Join(elems, sep)]. *)
Fixpoint Join (elems : list gostring) (sep : gostring) : gostring :=
  match elems with
  | [] => []
  | [e] => e
  | e :: rest => e ++ sep ++ Join rest sep
  end.

(** The loop of [strings.Replace] for a non-empty [old]: copy up to the next
    occurrence, write [new], continue behind the occurrence. *)
Fixpoint replace_loop (iters : nat) (s old new : gostring) : gostring :=
  match iters with
  | O => s
  | S k =>
      match Index s old with
      | None => s
      | Some j => take j s ++ new ++ replace_loop k (drop (j + length old) s) old new
      end
  end.

(** [strings.ReplaceAll(s, old, new)] for a non-empty [old]. *)
Definition ReplaceAll (s old new : gostring) : gostring :=
  replace_loop (length s) s old new.

(** The UTF-8 encodings of the code points for which [unicode.IsSpace]
    holds: the six ASCII ones (tab, LF, VT, FF, CR, space), then U+0085,
    U+00A0, U+1680, U+2000..U+200A, U+2028, U+2029, U+202F, U+205F and
    U+3000. *)
Definition space_encodings : list gostring :=
  [ ["009"%char]; ["010"%char]; ["011"%char]; ["012"%char]; ["013"%char];
    ["032"%char];
    ["194"; "133"]%char; ["194"; "160"]%char;
    ["225"; "154"; "128"]%char;
    ["226"; "128"; "128"]%char; ["226"; "128"; "129"]%char;
    ["226"; "128"; "130"]%char; ["226"; "128"; "131"]%char;
    ["226"; "128"; "132"]%char; ["226"; "128"; "133"]%char;
    ["226"; "128"; "134"]%char; ["226"; "128"; "135"]%char;
    ["226"; "128"; "136"]%char; ["226"; "128"; "137"]%char;
    ["226"; "128"; "138"]%char;
    ["226"; "128"; "168"]%char; ["226"; "128"; "169"]%char;
    ["226"; "128"; "175"]%char;
    ["226"; "129"; "159"]%char;
    ["227"; "128"; "128"]%char ].

(** The rest of [s] behind a leading member of [pats], if [s] starts with
    one. *)
Fixpoint cut_leading (pats : list gostring) (s : gostring) : option gostring :=
  match pats with
  | [] => None
  | p :: pats' =>
      if HasPrefix s p then Some (drop (length p) s) else cut_leading pats' s
  end.

(** Remove leading members of [pats] as long as there is one. *)
Fixpoint strip_leading (fuel : nat) (pats : list gostring) (s : gostring) : gostring :=
  match fuel with
  | O => s
  | S k =>
      match cut_leading pats s with
      | Some s' => strip_leading k pats s'
      | None => s
      end
  end.

(** [strings.TrimLeftFunc(s, unicode.IsSpace)]: a leading rune is white
    space exactly when the string starts with its encoding. *)
Definition TrimLeftSpace (s : gostring) : gostring :=
  strip_leading (length s) space_encodings s.

(** [strings.TrimRightFunc(s, unicode.IsSpace)]: the last rune is white space
    exactly when the string ends with its encoding (every encoding starts
    with a byte that begins a rune, which is where
    [utf8.DecodeLastRuneInString] starts decoding). *)
Definition TrimRightSpace (s : gostring) : gostring :=
  rev (strip_leading (length s) (map (@rev ascii) space_encodings) (rev s)).

(** [strings.TrimSpace(s)]: white space removed on the left, then on the
    right.  The ASCII fast path of the Go function gives the same result. *)
Definition TrimSpace (s : gostring) : gostring :=
  TrimRightSpace (TrimLeftSpace s).

(** The comparison [a < b] of Go on strings: lexical, byte by byte, on the
    unsigned value of each byte. *)
Fixpoint string_lt (a b : gostring) : bool :=
  match a, b with
  | _, [] => false
  | [], _ :: _ => true
  | x :: a', y :: b' =>
      if (N_of_ascii x <? N_of_ascii y)%N then true
      else if (N_of_ascii y <? N_of_ascii x)%N then false
      else string_lt a' b'
  end.

End GoStrings.

(* ===================================================================== *)
(** ** Packages [crypto/sha256] and [encoding/hex] *)
(* ===================================================================== *)

Module sha256.

Local Open Scope N_scope.

(** Arithmetic of Go's [uint32]: results are reduced modulo [2^32]. *)
Definition u32 (x : N) : N := N.land x 0xffffffff.

Definition add32 (x y : N) : N := u32 (x + y).

(** [bits.RotateLeft32(x, -k)]. *)
Definition rotr (k x : N) : N :=
  N.lor (N.shiftr x k) (u32 (N.shiftl x (32 - k))).

Definition not32 (x : N) : N := N.lxor x 0xffffffff.

(** The first 64 primes. *)
Definition is_prime (p : N) : bool :=
  (1 <? p) &&
  forallb (fun d => negb (p mod d =? 0)) (map N.of_nat (seq 2 (N.to_nat p - 2))).

Definition primes : list N :=
  Eval vm_compute in List.filter is_prime (map N.of_nat (seq 2 310)).

(** The largest [r] in [lo, hi) with [r^3 <= x], by bisection. *)
Fixpoint cube_root (fuel : nat) (lo hi x : N) : N :=
  match fuel with
  | O => lo
  | S fuel' =>
      if hi <=? lo + 1 then lo
      else
        let mid := (lo + hi) / 2 in
        if mid * mid * mid <=? x then cube_root fuel' mid hi x
        else cube_root fuel' lo mid x
  end.

(** The round constants [_K] of [sha256block.go]: the first 32 bits of the
    fractional parts of the cube roots of the first 64 primes. *)
Definition _K : list N :=
  Eval vm_compute in
    map (fun p => cube_root 64 0 (2 ^ 40) (p * 2 ^ 96) mod 2 ^ 32) primes.

(** The chaining value [h0 .. h7]. *)
Record digest := Digest {
  h0 : N; h1 : N; h2 : N; h3 : N; h4 : N; h5 : N; h6 : N; h7 : N
}.

(** The initial value [init0 .. init7]: the first 32 bits of the fractional
    parts of the square roots of the first 8 primes. *)
Definition init : digest :=
  Eval vm_compute in
    let h := map (fun p => N.sqrt (p * 2 ^ 64) mod 2 ^ 32) primes in
    Digest (nth 0 h 0) (nth 1 h 0) (nth 2 h 0) (nth 3 h 0)
           (nth 4 h 0) (nth 5 h 0) (nth 6 h 0) (nth 7 h 0).

(** Four bytes, big-endian, as a [uint32]. *)
Definition be32 (b0 b1 b2 b3 : ascii) : N :=
  N.lor (N.shiftl (N_of_ascii b0) 24)
    (N.lor (N.shiftl (N_of_ascii b1) 16)
       (N.lor (N.shiftl (N_of_ascii b2) 8) (N_of_ascii b3))).

(** The first sixteen words of the message schedule: the block read as
    big-endian words. *)
Fixpoint block_words (p : gostring) : list N :=
  match p with
  | b0 :: b1 :: b2 :: b3 :: p' => be32 b0 b1 b2 b3 :: block_words p'
  | _ => []
  end.

(** [w[i] = t1 + w[i-7] + t2 + w[i-16]] for [i = 16 .. 63]; [w] holds the
    words computed so far. *)
Definition next_word (w : list N) : N :=
  let i := length w in
  let v1 := nth (i - 2) w 0 in
  let t1 := N.lxor (N.lxor (rotr 17 v1) (rotr 19 v1)) (N.shiftr v1 10) in
  let v2 := nth (i - 15) w 0 in
  let t2 := N.lxor (N.lxor (rotr 7 v2) (rotr 18 v2)) (N.shiftr v2 3) in
  add32 (add32 (add32 t1 (nth (i - 7) w 0)) t2) (nth (i - 16) w 0).

Fixpoint extend (n : nat) (w : list N) : list N :=
  match n with
  | O => w
  | S n' => extend n' (w ++ [next_word w])
  end.

(** One round of the compression loop on the working variables. *)
Definition round (v : digest) (kw : N * N) : digest :=
  let '(Digest a b c d e f g h) := v in
  let t1 :=
    add32 (add32 (add32 (add32 h
      (N.lxor (N.lxor (rotr 6 e) (rotr 11 e)) (rotr 25 e)))
      (N.lxor (N.land e f) (N.land (not32 e) g))) (fst kw)) (snd kw) in
  let t2 :=
    add32 (N.lxor (N.lxor (rotr 2 a) (rotr 13 a)) (rotr 22 a))
          (N.lxor (N.lxor (N.land a b) (N.land a c)) (N.land b c)) in
  Digest (add32 t1 t2) a b c (add32 d t1) e f g.

(** [block] on one 64-byte block. *)
Definition block (hs : digest) (p : gostring) : digest :=
  let w := extend 48 (block_words p) in
  let v := fold_left round (combine _K w) hs in
  Digest (add32 (h0 hs) (h0 v)) (add32 (h1 hs) (h1 v))
         (add32 (h2 hs) (h2 v)) (add32 (h3 hs) (h3 v))
         (add32 (h4 hs) (h4 v)) (add32 (h5 hs) (h5 v))
         (add32 (h6 hs) (h6 v)) (add32 (h7 hs) (h7 v)).

(** The blocks of a padded message, in order. *)
Fixpoint blocks (n : nat) (hs : digest) (p : gostring) : digest :=
  match n with
  | O => hs
  | S n' => blocks n' (block hs (take 64 p)) (drop 64 p)
  end.

(** A [uint64], big-endian, as eight bytes. *)
Definition be64_bytes (x : N) : gostring :=
  map (fun k => ascii_of_N (N.land (N.shiftr x (8 * k)) 0xff))
      [7; 6; 5; 4; 3; 2; 1; 0].

(** A [uint32], big-endian, as four bytes. *)
Definition be32_bytes (x : N) : gostring :=
  map (fun k => ascii_of_N (N.land (N.shiftr x (8 * k)) 0xff)) [3; 2; 1; 0].

(** Padding: the byte [0x80], zero bytes up to 56 modulo 64, and the length
    of the message in bits as a [uint64]. *)
Definition pad (msg : gostring) : gostring :=
  let len := N.of_nat (length msg) in
  let zeros := N.to_nat ((64 - (len + 9) mod 64) mod 64) in
  msg ++ ["128"%char] ++ repeat "000"%char zeros
      ++ be64_bytes (N.land (len * 8) 0xffffffffffffffff).

(** [sha256.Sum256(data)]: the 32 bytes of the digest. *)
Definition Sum256 (data : gostring) : gostring :=
  let p := pad data in
  let '(Digest a b c d e f g h) := blocks (length p / 64)%nat init p in
  be32_bytes a ++ be32_bytes b ++ be32_bytes c ++ be32_bytes d ++
  be32_bytes e ++ be32_bytes f ++ be32_bytes g ++ be32_bytes h.

End sha256.

Module hex.

(** The table [hextable = "0123456789abcdef"]. *)
Definition hextable : gostring := str "0123456789abcdef".

(** [hex.EncodeToString(src)]: two lower-case digits per byte, the high
    nibble first. *)
Definition EncodeToString (src : gostring) : gostring :=
  flat_map (fun b =>
    let v := nat_of_ascii b in
    [ nth (v / 16) hextable "0"%char; nth (v mod 16) hextable "0"%char ]) src.

End hex.

Import GoStrings.

(* ===================================================================== *)
(** ** Database calls, errors and results *)
(* ===================================================================== *)

(** A row of [supabase_migrations.schema_migrations] as the [INSERT] of the
    program gives it; [created_at] is left to the server's default. *)
Record LedgerRow := mkRow {
  row_version : gostring;
  row_name : gostring;
  row_hash : gostring;
  row_statements : gostring;           (* the text that is cast to text[] *)
  row_created_by : option gostring;
  row_idempotency_key : option gostring (* None is SQL NULL *)
}.

(** Database calls of the program, as the driver sees them.  The two
    [CREATE ... IF NOT EXISTS] statements and the [SELECT] of the ledger are
    issued on the handle, everything between [BeginTx] and [Commit] or
    [Rollback] on the transaction.  [RowsNext i] is the [rows.Next()] that
    fetches row [i] of the [SELECT]. *)
Inductive Call :=
| CreateSchema
| CreateTable
| QueryLedger
| RowsNext (i : nat)
| BeginTx
| ExecStmt (stmt : gostring)
| InsertLedger (row : LedgerRow)
| Rollback
| Commit.

(** The [error] values of the program. *)
Inductive error :=
| ErrReadDir                          (* os.ReadDir failed *)
| ErrReadFile (name : gostring)       (* os.ReadFile failed *)
| ErrInvalidName (name : gostring)    (* "invalid migration name: %s" *)
| ErrCreateSchema                     (* "error creating schema: %v" *)
| ErrCreateTable                      (* "error creating table: %v" *)
| ErrDriver (c : Call).               (* the error a database call returned *)

(** A Go pair [(value, err)]. *)
Inductive result (A : Type) :=
| Ok (a : A)
| Err (e : error).
Arguments Ok {A} a.
Arguments Err {A} e.

(* ===================================================================== *)
(** ** The loader *)
(* ===================================================================== *)

Record Migration := mkMigration {
  Version : gostring;
  Name : gostring;
  Raw : gostring;
  Statements : list gostring;
  Hash : gostring
}.

(** [computeHash]: SHA-256 of the bytes, in hexadecimal. *)
Definition computeHash (s : gostring) : gostring :=
  hex.EncodeToString (sha256.Sum256 s).

(** An entry of the migrations directory as [os.ReadDir] lists it, with the
    outcome [os.ReadFile] has on it ([None]: the read fails). *)
Record DirEntry := mkEntry {
  entry_name : gostring;
  entry_is_dir : bool;
  entry_data : option gostring
}.

(** The literal the file content is split by. *)
Definition breakpoint : gostring := str "-- statement-breakpoint".

(** The loop over [chunks] (lines 71 to 76): every chunk is trimmed and
    appended unless it is empty then. *)
Fixpoint collect_statements (chunks : list gostring) : list gostring :=
  match chunks with
  | [] => []
  | c :: chunks' =>
      let stmt := TrimSpace c in
      match stmt with
      | [] => collect_statements chunks'
      | _ :: _ => stmt :: collect_statements chunks'
      end
  end.

(** The body of the loop over the directory entries (lines 48 to 84):
    [Ok None] is [continue], [Ok (Some m)] the migration appended. *)
Definition load_entry (f : DirEntry) : result (option Migration) :=
  if entry_is_dir f || negb (HasSuffix (entry_name f) (str ".sql")) then Ok None
  else
    match entry_data f with
    | None => Err (ErrReadFile (entry_name f))
    | Some raw =>
        match SplitN (entry_name f) (str "_") 2 with
        | [version; name] =>
            let statements := collect_statements (Split raw breakpoint) in
            Ok (Some {| Version := version;
                        Name := name;
                        Raw := raw;
                        Statements := statements;
                        Hash := computeHash raw |})
        | _ => Err (ErrInvalidName (entry_name f))
        end
    end.

(** The loop over the directory entries; [migrations] is the slice built so
    far. *)
Fixpoint load_loop (files : list DirEntry) (migrations : list Migration)
  : result (list Migration) :=
  match files with
  | [] => Ok migrations
  | f :: files' =>
      match load_entry f with
      | Err e => Err e
      | Ok None => load_loop files' migrations
      | Ok (Some m) => load_loop files' (migrations ++ [m])
      end
  end.

(** The comparison handed to [sort.Slice]. *)
Definition version_less (a b : Migration) : bool :=
  string_lt (Version a) (Version b).

Section Loader.

(** [sort.Slice] of the Go library, on the slice and its [less]. *)
Variable sortSlice :
  list Migration -> (Migration -> Migration -> bool) -> list Migration.

(** [loadLocalMigrations]; [dir] is what [os.ReadDir(migrationsDir)]
    returns, [None] when it fails. *)
Definition loadLocalMigrations (dir : option (list DirEntry))
  : result (list Migration) :=
  match dir with
  | None => Err ErrReadDir
  | Some files =>
      match load_loop files [] with
      | Err e => Err e
      | Ok migrations => Ok (sortSlice migrations version_less)
      end
  end.

End Loader.

(** What package [sort] asks of [less]: a strict weak ordering. *)
Record StrictWeakOrder {A} (less : A -> A -> bool) : Prop := {
  swo_asym : forall a b, less a b = true -> less b a = false;
  swo_negtrans : forall a b c, less a c = true -> less a b = true \/ less b c = true
}.

(** What Go documents of [sort.Slice]: the slice is rearranged (nothing is
    added or lost) and ends up sorted by [less]; the sort is not guaranteed
    to be stable, so equal elements may end up in any order. *)
Definition SortSliceContract
  (srt : list Migration -> (Migration -> Migration -> bool) -> list Migration)
  : Prop :=
  forall l less,
    Permutation (srt l less) l /\
    (StrictWeakOrder less ->
     StronglySorted (fun a b => less b a = false) (srt l less)).

(** The insertion sort of package [sort] ([insertionSort_func]), which
    [sort.Slice] runs on slices of at most twelve elements: the element at
    [j] moves left while it is less than its left neighbour.  [rprefix] is
    the sorted part, last element first. *)
Fixpoint sift {A} (less : A -> A -> bool) (x : A) (rprefix : list A) : list A :=
  match rprefix with
  | [] => [x]
  | y :: r => if less x y then y :: sift less x r else x :: y :: r
  end.

Definition insertionSort {A} (l : list A) (less : A -> A -> bool) : list A :=
  rev (fold_left (fun rprefix x => sift less x rprefix) l []).

(** A sort that meets the documented contract and is not stable: the slice
    is reversed first. *)
Definition reversingSort {A} (l : list A) (less : A -> A -> bool) : list A :=
  insertionSort (rev l) less.

(* ===================================================================== *)
(** ** The ledger array encoder *)
(* ===================================================================== *)

Definition backslash : ascii := "092"%char.
Definition dquote : ascii := "034"%char.

(** [formatPostgresArray]. *)
Definition formatPostgresArray (arr : list gostring) : gostring :=
  if decide (length arr = 0) then str "{}"
  else
    let escaped :=
      map (fun v =>
             let v := ReplaceAll v [backslash] [backslash; backslash] in
             let v := ReplaceAll v [dquote] [backslash; dquote] in
             [dquote] ++ v ++ [dquote]) arr in
    str "{" ++ Join escaped (str ",") ++ str "}".

(** The reader of array literals of PostgreSQL ([array_in]), which the
    [$4::text[]] cast of the [INSERT] runs on the encoder's output, for
    one-dimensional literals whose elements are all double-quoted: the
    literal is [{}] or [{"..","..",..}]; inside the quotes a backslash makes
    the next byte part of the element, whatever it is, and an unescaped
    double quote ends the element. *)
Inductive array_state :=
| AtStart                                        (* before the brace *)
| AtFirst                                        (* behind the opening brace *)
| AtElem (done : list gostring)                  (* behind a comma *)
| InQuotes (done : list gostring) (cur : gostring)
| Escaped (done : list gostring) (cur : gostring)
| AfterElem (done : list gostring)               (* behind a closing quote *)
| AtEnd (done : list gostring)                   (* behind the closing brace *)
| Malformed.

Definition array_step (st : array_state) (c : ascii) : array_state :=
  match st with
  | AtStart => if Ascii.eqb c "{" then AtFirst else Malformed
  | AtFirst =>
      if Ascii.eqb c "}" then AtEnd []
      else if Ascii.eqb c dquote then InQuotes [] []
      else Malformed
  | AtElem done => if Ascii.eqb c dquote then InQuotes done [] else Malformed
  | InQuotes done cur =>
      if Ascii.eqb c backslash then Escaped done cur
      else if Ascii.eqb c dquote then AfterElem (done ++ [cur])
      else InQuotes done (cur ++ [c])
  | Escaped done cur => InQuotes done (cur ++ [c])
  | AfterElem done =>
      if Ascii.eqb c "," then AtElem done
      else if Ascii.eqb c "}" then AtEnd done
      else Malformed
  | AtEnd _ => Malformed
  | Malformed => Malformed
  end.

Definition parsePostgresArray (lit : gostring) : option (list gostring) :=
  match fold_left array_step lit AtStart with
  | AtEnd done => Some done
  | _ => None
  end.

(* ===================================================================== *)
(** ** The database handle and [main] *)
(* ===================================================================== *)

(** What is durable in the database: the statements that took effect, in
    order, and the rows of the ledger table. *)
Record Store := mkStore {
  effects : list gostring;
  ledger : list LedgerRow
}.

(** The lines of the progress log. *)
Inductive Output :=
| OutLoading                               (* "Loading database state..." *)
| OutFound (n : nat)                       (* "Found %d local migrations." *)
| OutAlready (version name : gostring)     (* "Migration already applied: %s (%s)" *)
| OutApplying (version name : gostring)    (* "Applying pending migration: %s (%s)" *)
| OutStmtError                             (* "Error executing statement: %v" *)
| OutSuccess (version : gostring)          (* "Migration %s applied successfully." *)
| OutAllApplied.                           (* "All pending migrations have been applied." *)

(** The state a run acts on: the committed store, the view of the open
    transaction if there is one, the calls made so far (statements and
    transaction calls; the fetches of the rows of the [SELECT] are not
    entered) and the lines printed so far, both oldest first. *)
Record World := mkWorld {
  committed : Store;
  tx : option Store;
  calls : list Call;
  out : list Output
}.

(** How a computation ends: it returns, or it panics with an error. *)
Inductive outcome (A : Type) :=
| Returned (a : A)
| Panicked (e : error).
Arguments Returned {A} a.
Arguments Panicked {A} e.

Definition M (A : Type) : Type := World -> outcome A * World.

Definition ret {A} (a : A) : M A := fun w => (Returned a, w).

Definition panic {A} (e : error) : M A := fun w => (Panicked e, w).

Definition bind {A B} (m : M A) (k : A -> M B) : M B :=
  fun w =>
    match m w with
    | (Returned a, w') => k a w'
    | (Panicked e, w') => (Panicked e, w')
    end.

#[global] Instance M_ret : MRet M := @ret.
#[global] Instance M_bind : MBind M := fun A B k m => bind m k.

Definition print (o : Output) : M unit :=
  fun w => (Returned tt, mkWorld (committed w) (tx w) (calls w) (out w ++ [o])).

Definition log_call (c : Call) (w : World) : World :=
  mkWorld (committed w) (tx w) (calls w ++ [c]) (out w).

Definition set_tx (t : option Store) (w : World) : World :=
  mkWorld (committed w) t (calls w) (out w).

Definition set_committed (s : Store) (w : World) : World :=
  mkWorld s (tx w) (calls w) (out w).

Section Driver.

(** Whether a call returns an error, given the calls made before it.  Any
    behaviour of the server and of the connection is some [fails]. *)
Variable fails : list Call -> Call -> bool.

(** A call on the handle that changes nothing the model keeps
    ([CREATE SCHEMA IF NOT EXISTS], [CREATE TABLE IF NOT EXISTS]):
    [true] is a non-nil [err]. *)
Definition db_Exec (c : Call) : M bool :=
  fun w => (Returned (fails (calls w) c), log_call c w).

(** The loop [for rows.Next()] (lines 180 to 187) over the rows the
    [SELECT] has, [i] being the index of the next one: [rows.Next()] returns
    false when there is no further row and also when fetching the next row
    fails.  The program never looks at [rows.Err()], so a failed fetch ends
    the loop as the end of the rows does and the rows read so far are all
    the program sees.  [rows.Scan] into two strings cannot fail on a row of
    this table ([version] is the primary key, [hash] is [NOT NULL], both
    [TEXT]).  [history] is the log of calls with the [SELECT] at its end;
    the fetches are not entered in the log. *)
Fixpoint rows_loop (history : list Call) (i : nat)
    (rows : list (gostring * gostring)) : list (gostring * gostring) :=
  match rows with
  | [] => []
  | r :: rows' =>
      if fails history (RowsNext i) then []
      else r :: rows_loop history (S i) rows'
  end.

(** [db.QueryContext] of [SELECT version, hash] with the loop over
    [rows]: the pairs of the committed ledger the loop gets to read. *)
Definition db_Query : M (result (list (gostring * gostring))) :=
  fun w =>
    if fails (calls w) QueryLedger
    then (Returned (Err (ErrDriver QueryLedger)), log_call QueryLedger w)
    else (Returned (Ok (rows_loop (calls w ++ [QueryLedger]) 0
                          (map (fun r => (row_version r, row_hash r))
                               (ledger (committed w))))),
          log_call QueryLedger w).

(** [db.BeginTx]: the transaction starts from the committed store. *)
Definition db_BeginTx : M bool :=
  fun w =>
    if fails (calls w) BeginTx then (Returned true, log_call BeginTx w)
    else (Returned false, set_tx (Some (committed w)) (log_call BeginTx w)).

(** [tx.ExecContext(ctx, stmt)]: the statement takes effect in the view of
    the transaction. *)
Definition tx_Exec (stmt : gostring) : M bool :=
  fun w =>
    let w1 := log_call (ExecStmt stmt) w in
    match tx w with
    | Some v =>
        if fails (calls w) (ExecStmt stmt) then (Returned true, w1)
        else (Returned false,
              set_tx (Some (mkStore (effects v ++ [stmt]) (ledger v))) w1)
    | None => (Returned true, w1)
    end.

(** [tx.ExecContext] of the [INSERT] into the ledger: [version] is the
    primary key, so the row is refused when the view already has one of
    that version. *)
Definition tx_Insert (row : LedgerRow) : M bool :=
  fun w =>
    let w1 := log_call (InsertLedger row) w in
    match tx w with
    | Some v =>
        if fails (calls w) (InsertLedger row)
           || bool_decide (row_version row ∈ map row_version (ledger v))
        then (Returned true, w1)
        else (Returned false,
              set_tx (Some (mkStore (effects v) (ledger v ++ [row]))) w1)
    | None => (Returned true, w1)
    end.

(** [tx.Rollback]: the view is dropped. *)
Definition tx_Rollback : M unit :=
  fun w => (Returned tt, set_tx None (log_call Rollback w)).

(** [tx.Commit]: the view becomes the committed store; a commit that
    fails leaves the committed store as it was.  Either way the
    transaction is over. *)
Definition tx_Commit : M bool :=
  fun w =>
    let w1 := log_call Commit w in
    match tx w with
    | Some v =>
        if fails (calls w) Commit then (Returned true, set_tx None w1)
        else (Returned false, set_tx None (set_committed v w1))
    | None => (Returned true, w1)
    end.

(** The loop over [m.Statements] (lines 215 to 221). *)
Fixpoint exec_statements (stmts : list gostring) : M unit :=
  match stmts with
  | [] => ret tt
  | stmt :: stmts' =>
      err ← tx_Exec stmt;
      if (err : bool)
      then print OutStmtError;; tx_Rollback;; panic (ErrDriver (ExecStmt stmt))
      else exec_statements stmts'
  end.

(** The row the [INSERT] writes for [m] (lines 224 to 237). *)
Definition ledger_row (m : Migration) : LedgerRow :=
  {| row_version := Version m;
     row_name := Name m;
     row_hash := Hash m;
     row_statements := formatPostgresArray (Statements m);
     row_created_by := Some (str "supabase-direct-migrate");
     row_idempotency_key := None |}.

(** The body of the loop of [main] for a migration that is not in the
    ledger (lines 205 to 250). *)
Definition apply_migration (m : Migration) : M unit :=
  print (OutApplying (Version m) (Name m));;
  err ← db_BeginTx;
  if (err : bool) then panic (ErrDriver BeginTx)
  else
    exec_statements (Statements m);;
    err ← tx_Insert (ledger_row m);
    if (err : bool)
    then tx_Rollback;; panic (ErrDriver (InsertLedger (ledger_row m)))
    else
      err ← tx_Commit;
      if (err : bool) then panic (ErrDriver Commit)
      else print (OutSuccess (Version m)).

(** The loop of [main] over the local migrations (lines 198 to 251). *)
Fixpoint apply_loop (applied : gmap gostring gostring)
    (localMigrations : list Migration) : M unit :=
  match localMigrations with
  | [] => ret tt
  | m :: rest =>
      match applied !! Version m with
      | Some _ => print (OutAlready (Version m) (Name m))
      | None => apply_migration m
      end;;
      apply_loop applied rest
  end.

(** The map [applied] built from the rows of the ledger (lines 179 to
    187). *)
Definition read_applied (rows : list (gostring * gostring))
  : gmap gostring gostring :=
  fold_left (fun applied r => <[r.1 := r.2]> applied) rows ∅.

Variable sortSlice :
  list Migration -> (Migration -> Migration -> bool) -> list Migration.

(** [main] from "Loading database state..." on (lines 147 to 253); [dir]
    is the migrations directory as in [loadLocalMigrations].  Flags, the
    environment and opening the handle come before and touch neither the
    database nor the directory. *)
Definition main (dir : option (list DirEntry)) : M unit :=
  print OutLoading;;
  err ← db_Exec CreateSchema;
  if (err : bool) then panic ErrCreateSchema
  else
    err ← db_Exec CreateTable;
    if (err : bool) then panic ErrCreateTable
    else
      rows ← db_Query;
      match rows with
      | Err e => panic e
      | Ok rows =>
          let applied := read_applied rows in
          match loadLocalMigrations sortSlice dir with
          | Err e => panic e
          | Ok localMigrations =>
              print (OutFound (length localMigrations));;
              apply_loop applied localMigrations;;
              print OutAllApplied
          end
      end.

End Driver.

(* ===================================================================== *)
(** ** Vocabulary of the specification *)
(* ===================================================================== *)

(** [sep] occurs in [s] as a substring. *)
Definition occurs (sep s : gostring) : Prop :=
  exists l r, s = l ++ sep ++ r.

(** [sep] has a border: a proper, non-empty prefix that is also a suffix.
    Two occurrences of a string can overlap only if it has one. *)
Definition bordered (sep : gostring) : Prop :=
  exists k, 0 < k < length sep /\ take k sep = drop (length sep - k) sep.

Definition newline : gostring := ["010"%char].

(** The statement splitter as the specification words it: the content is
    cut at the lines whose trimmed content is the marker, and only there.
    [cur] holds the lines of the chunk being read. *)
Fixpoint group_lines (lines cur : list gostring) : list (list gostring) :=
  match lines with
  | [] => [cur]
  | l :: lines' =>
      if bool_decide (TrimSpace l = breakpoint)
      then cur :: group_lines lines' []
      else group_lines lines' (cur ++ [l])
  end.

Definition spec_statements_by_line (content : gostring) : list gostring :=
  collect_statements
    (map (fun g => Join g newline) (group_lines (Split content newline) [])).

(** The reconciler of the specification: the local migrations whose version
    has no entry in [applied], in their order. *)
Definition reconcile (applied : gmap gostring gostring)
    (localMigrations : list Migration) : list Migration :=
  List.filter (fun m => bool_decide (applied !! Version m = None)) localMigrations.

(** What a migration leaves in a store when it is applied as a whole. *)
Definition applied_to (s : Store) (m : Migration) : Store :=
  mkStore (effects s ++ Statements m) (ledger s ++ [ledger_row m]).

(** The calls of a migration that goes through. *)
Definition calls_of_success (m : Migration) : list Call :=
  [BeginTx] ++ map ExecStmt (Statements m)
            ++ [InsertLedger (ledger_row m); Commit].

(** The calls of a migration that fails, with the error of the panic: the
    transaction could not be opened; or a statement failed and the
    transaction was rolled back at once; or the insert into the ledger failed
    and the transaction was rolled back; or the commit failed. *)
Inductive aborted_calls (m : Migration) : list Call -> error -> Prop :=
| aborted_begin :
    aborted_calls m [BeginTx] (ErrDriver BeginTx)
| aborted_stmt before stmt after :
    Statements m = before ++ stmt :: after ->
    aborted_calls m
      ([BeginTx] ++ map ExecStmt (before ++ [stmt]) ++ [Rollback])
      (ErrDriver (ExecStmt stmt))
| aborted_insert :
    aborted_calls m
      ([BeginTx] ++ map ExecStmt (Statements m)
                 ++ [InsertLedger (ledger_row m); Rollback])
      (ErrDriver (InsertLedger (ledger_row m)))
| aborted_commit :
    aborted_calls m (calls_of_success m) (ErrDriver Commit).

(** The calls [cs], made one after the other after the calls [history], all
    return without error. *)
Fixpoint all_go_through (fails : list Call -> Call -> bool)
    (history cs : list Call) : bool :=
  match cs with
  | [] => true
  | c :: cs' =>
      negb (fails history c) && all_go_through fails (history ++ [c]) cs'
  end.

(** The migration [m], begun after the calls [history] on the committed
    store [s], goes through: none of its calls fails, and the ledger has no
    row of its version, so the primary key admits its row. *)
Definition goes_through (fails : list Call -> Call -> bool)
    (history : list Call) (s : Store) (m : Migration) : Prop :=
  all_go_through fails history (calls_of_success m) = true /\
  Version m ∉ map row_version (ledger s).

(** The migrations [done], applied one after the other from [history] and
    [s] on, all go through. *)
Fixpoint all_applied (fails : list Call -> Call -> bool)
    (history : list Call) (s : Store) (done : list Migration) : Prop :=
  match done with
  | [] => True
  | m :: done' =>
      goes_through fails history s m /\
      all_applied fails (history ++ calls_of_success m) (applied_to s m) done'
  end.

(** The migration [m], begun after the calls [history] on the committed
    store [s], fails, with the calls it makes and the error of the panic:
    the first of its calls that the driver fails is [BeginTx]; or it is a
    statement, and [Rollback] follows at once; or it is the insert of the
    row (failed by the driver or refused by the primary key), and
    [Rollback] follows; or it is [Commit]. *)
Inductive failed_at (fails : list Call -> Call -> bool)
    (history : list Call) (s : Store) (m : Migration)
  : list Call -> error -> Prop :=
| failed_begin :
    fails history BeginTx = true ->
    failed_at fails history s m [BeginTx] (ErrDriver BeginTx)
| failed_stmt before stmt after :
    Statements m = before ++ stmt :: after ->
    all_go_through fails history ([BeginTx] ++ map ExecStmt before) = true ->
    fails (history ++ [BeginTx] ++ map ExecStmt before) (ExecStmt stmt) = true ->
    failed_at fails history s m
      ([BeginTx] ++ map ExecStmt (before ++ [stmt]) ++ [Rollback])
      (ErrDriver (ExecStmt stmt))
| failed_insert :
    all_go_through fails history
      ([BeginTx] ++ map ExecStmt (Statements m)) = true ->
    fails (history ++ [BeginTx] ++ map ExecStmt (Statements m))
          (InsertLedger (ledger_row m)) = true
    \/ Version m ∈ map row_version (ledger s) ->
    failed_at fails history s m
      ([BeginTx] ++ map ExecStmt (Statements m)
                 ++ [InsertLedger (ledger_row m); Rollback])
      (ErrDriver (InsertLedger (ledger_row m)))
| failed_commit :
    all_go_through fails history
      ([BeginTx] ++ map ExecStmt (Statements m)
                 ++ [InsertLedger (ledger_row m)]) = true ->
    Version m ∉ map row_version (ledger s) ->
    fails (history ++ [BeginTx] ++ map ExecStmt (Statements m)
                   ++ [InsertLedger (ledger_row m)]) Commit = true ->
    failed_at fails history s m (calls_of_success m) (ErrDriver Commit).

(** The migrations announced by "Applying pending migration". *)
Definition announced (o : list Output) : list (gostring * gostring) :=
  flat_map (fun x => match x with
                     | OutApplying v n => [(v, n)]
                     | _ => []
                     end) o.

(** Lexical order on byte strings: [a] is a proper prefix of [b], or at the
    first position where they differ the byte of [a] is the smaller one. *)
Definition lexical_lt (a b : gostring) : Prop :=
  (exists r, r <> [] /\ b = a ++ r) \/
  (exists p x y ra rb,
      a = p ++ x :: ra /\ b = p ++ y :: rb /\ (N_of_ascii x < N_of_ascii y)%N).

(** Migrations of equal version are in the same relative order in [ms] as
    in [parsed]. *)
Definition ties_kept (parsed ms : list Migration) : Prop :=
  forall v,
    List.filter (fun m => bool_decide (Version m = v)) ms =
    List.filter (fun m => bool_decide (Version m = v)) parsed.

(** The hexadecimal digits [hex.EncodeToString] writes. *)
Definition is_hex_digit (c : ascii) : Prop := c ∈ hex.hextable.

(** What the two [ReplaceAll] of the encoder do to a byte, and an element
    as the encoder writes it. *)
Definition escape_byte (x : ascii) : gostring :=
  if Ascii.eqb x backslash then [backslash; backslash]
  else if Ascii.eqb x dquote then [backslash; dquote]
  else [x].

Definition quote (v : gostring) : gostring :=
  [dquote] ++ flat_map escape_byte v ++ [dquote].

(* ===================================================================== *)
(** ** Sample inputs *)
(* ===================================================================== *)

(** A marker that is not a line of its own. *)
Definition marker_inside_line : DirEntry :=
  mkEntry (str "1_a.sql") false
    (Some (str "SELECT 1; -- statement-breakpoint SELECT 2;")).

(** Two files with the same statements; the second has an empty line before
    the marker. *)
Definition tight_file : DirEntry :=
  mkEntry (str "1_a.sql") false
    (Some (str "SELECT 1;" ++ newline ++ breakpoint ++ newline ++ str "SELECT 2;")).

Definition airy_file : DirEntry :=
  mkEntry (str "1_a.sql") false
    (Some (str "SELECT 1;" ++ newline ++ newline ++ breakpoint ++ newline
             ++ str "SELECT 2;")).

(** A directory whose versions sort against their numeric order. *)
Definition two_versions : option (list DirEntry) :=
  Some [ mkEntry (str "10_b.sql") false (Some (str "SELECT 10;"));
         mkEntry (str "9_a.sql") false (Some (str "SELECT 9;")) ].

(** A directory of fifty files as [os.ReadDir] lists it, sorted by file
    name: the versions are 49 ones, 48 ones, and so on down to two ones, in
    descending order since ["1"] sorts before ["_"], and then two files of
    version ["1"]. *)
Definition descending_with_tie : list DirEntry :=
  map (fun k => mkEntry (repeat "1"%char k ++ str "_m.sql") false
                        (Some (str "SELECT 0;")))
      (rev (seq 2 48))
  ++ [ mkEntry (str "1_a.sql") false (Some (str "SELECT 1;"));
       mkEntry (str "1_b.sql") false (Some (str "SELECT 2;")) ].


(** A server and a connection on which every call goes through, and an empty
    database. *)
Definition never_fails (history : list Call) (c : Call) : bool := false.

Definition fresh_world : World := mkWorld (mkStore [] []) None [] [].

(** A server that refuses the statement [bad] and nothing else. *)
Definition fails_on (bad : gostring) (history : list Call) (c : Call) : bool :=
  match c with
  | ExecStmt stmt => bool_decide (stmt = bad)
  | _ => false
  end.

(** One migration of two statements, as in the README. *)
Definition users_file : DirEntry :=
  mkEntry (str "20240101120000_create_users_table.sql") false
    (Some (breakpoint ++ newline ++ str "CREATE TABLE users (id SERIAL);"
             ++ newline ++ newline ++ breakpoint ++ newline
             ++ str "CREATE INDEX idx ON users(id);" ++ newline)).

(** A migration whose second statement the server refuses, and one behind
    it. *)
Definition broken_file : DirEntry :=
  mkEntry (str "20240102000000_broken.sql") false
    (Some (str "CREATE TABLE t (id INT);" ++ newline ++ breakpoint ++ newline
             ++ str "CREATE TABEL u;")).

Definition later_file : DirEntry :=
  mkEntry (str "20240103000000_later.sql") false
    (Some (str "CREATE TABLE v (id INT);")).

(* ===================================================================== *)
(** ** More vocabulary *)
(* ===================================================================== *)

(** The entries the loader reads: files whose name ends in [.sql]
    (line 48). *)
Definition is_migration_file (f : DirEntry) : bool :=
  negb (entry_is_dir f || negb (HasSuffix (entry_name f) (str ".sql"))).

(** The state [main] leaves behind when it stops before the loop: the calls
    [cs] and the lines [o] added, nothing else touched. *)
Definition stopped (w : World) (cs : list Call) (o : list Output) : World :=
  mkWorld (committed w) (tx w) (calls w ++ cs) (out w ++ o).

(** The pairs [(version, hash)] the [SELECT] of the ledger returns. *)
Definition ledger_pairs (s : Store) : list (gostring * gostring) :=
  map (fun r => (row_version r, row_hash r)) (ledger s).

(** The rows the loop over [rows] reads in a run of [main] started in [w]:
    the [SELECT] is the third call of the run. *)
Definition rows_seen (fails : list Call -> Call -> bool) (w : World)
  : list (gostring * gostring) :=
  rows_loop fails (calls w ++ [CreateSchema; CreateTable; QueryLedger]) 0
    (ledger_pairs (committed w)).

(** The run of [main] started in [w] reads the ledger to its end. *)
Definition reads_whole_ledger (fails : list Call -> Call -> bool) (w : World)
  : Prop :=
  rows_seen fails w = ledger_pairs (committed w).

(** Ascending order of version, equal versions allowed. *)
Definition ascending (versions : list gostring) : Prop :=
  StronglySorted (fun a b => string_lt b a = false) versions.

(** The calls of a migration: the frame of the transaction, its statements
    and its row. *)
Definition call_of (m : Migration) (c : Call) : Prop :=
  c = BeginTx \/ c = Commit \/ c = Rollback \/
  c = InsertLedger (ledger_row m) \/
  exists stmt, c = ExecStmt stmt /\ stmt ∈ Statements m.

(** A directory with one unreadable file between two good ones. *)
Definition unreadable_dir : list DirEntry :=
  [ users_file;
    mkEntry (str "20240102000000_gone.sql") false None;
    later_file ].

(** A directory with a subdirectory and a file that is not SQL next to a
    migration. *)
Definition mixed_dir : list DirEntry :=
  [ mkEntry (str "archive") true None;
    users_file;
    mkEntry (str "notes_today.txt") false (Some (str "remember")) ].


(** A connection that breaks while the first row of the [SELECT] is
    fetched, and fails nothing else. *)
Definition fetch_breaks (history : list Call) (c : Call) : bool :=
  match c with
  | RowsNext _ => true
  | _ => false
  end.

(* ===================================================================== *)
(** * Facts about the string functions *)
(* ===================================================================== *)

Section StringFacts.

Implicit Types s sep l r c : gostring.

Lemma HasPrefix_app s p : HasPrefix (p ++ s) p = true.
Proof.
  induction p as [|x p IH]; simpl; [done|].
  by rewrite Ascii.eqb_refl, IH.
Qed.

Lemma HasPrefix_true s p : HasPrefix s p = true -> s = p ++ drop (length p) s.
Proof.
  revert s; induction p as [|x p IH]; intros [|y s]; simpl; try done.
  intros [Hxy Hp]%andb_true_iff. apply Ascii.eqb_eq in Hxy as ->.
  f_equal. by apply IH.
Qed.

Lemma HasPrefix_iff s p : HasPrefix s p = true <-> exists r, s = p ++ r.
Proof.
  split.
  - intros H. eexists. by apply HasPrefix_true.
  - intros [r ->]. apply HasPrefix_app.
Qed.

Lemma HasPrefix_nil_false p : p <> [] -> HasPrefix [] p = false.
Proof. by destruct p. Qed.

Lemma occurs_nil sep : sep <> [] -> ~ occurs sep [].
Proof.
  intros Hsep (l & r & H). symmetry in H.
  apply app_eq_nil in H as [_ H]. apply app_eq_nil in H as [H _]. done.
Qed.

Lemma occurs_cons sep x s : occurs sep s -> occurs sep (x :: s).
Proof. intros (l & r & ->). by exists (x :: l), r. Qed.

Lemma occurs_cons_inv sep x s :
  occurs sep (x :: s) -> HasPrefix (x :: s) sep = true \/ occurs sep s.
Proof.
  intros ([|y l] & r & H).
  - left. simpl in H. rewrite H. apply HasPrefix_app.
  - right. injection H as _ ->. by exists l, r.
Qed.

Lemma occurs_infix sep u s v : occurs sep s -> occurs sep (u ++ s ++ v).
Proof.
  intros (l & r & ->). exists (u ++ l), (r ++ v).
  by rewrite <- !app_assoc.
Qed.

(** [Index] finds an occurrence, and the first one. *)
Lemma Index_None s sep : Index s sep = None <-> ~ occurs sep s.
Proof.
  induction s as [|x s IH]; simpl.
  - destruct (HasPrefix [] sep) eqn:E.
    + split; [done|]. intros []. exists [], []. simpl.
      apply HasPrefix_true in E. by rewrite drop_nil in E.
    + split; [|done]. intros _ ([|??] & r & H); [|done].
      simpl in H. rewrite H, HasPrefix_app in E. done.
  - destruct (HasPrefix (x :: s) sep) eqn:E.
    + split; [done|]. intros []. apply HasPrefix_iff in E as [r E].
      exists [], r. by rewrite E.
    + destruct (Index s sep) eqn:EI; simpl.
      * split; [done|]. intros H. exfalso.
        destruct IH as [_ IH]. enough (Some n = None) by done.
        apply IH. intros Ho. apply H. by apply occurs_cons.
      * split; [|done]. intros _ [H|H]%occurs_cons_inv; [congruence|].
        by apply IH.
Qed.

Lemma Index_Some s sep m :
  Index s sep = Some m ->
  s = take m s ++ sep ++ drop (m + length sep) s /\
  (sep <> [] -> ~ occurs sep (take m s)).
Proof.
  revert m; induction s as [|x s IH]; intros m; simpl.
  - destruct (HasPrefix [] sep) eqn:E; [|done]. intros [= <-].
    apply HasPrefix_true in E. split; [done|].
    intros Hsep. by apply occurs_nil.
  - destruct (HasPrefix (x :: s) sep) eqn:E.
    + intros [= <-]. split; [by apply HasPrefix_true in E|].
      intros Hsep. by apply occurs_nil.
    + destruct (Index s sep) as [m'|] eqn:EI; [|done]. simpl.
      intros [= <-]. destruct (IH m' eq_refl) as [Hs Hno]. split.
      * simpl. by f_equal.
      * intros Hsep. simpl. intros [H|H]%occurs_cons_inv.
        -- apply HasPrefix_iff in H as [r H].
           assert (HasPrefix (x :: s) sep = true); [|congruence].
           apply HasPrefix_iff. exists (r ++ drop m' s).
           rewrite <- (take_drop m' s) at 1.
           rewrite app_comm_cons, H. by rewrite <- app_assoc.
        -- by apply Hno.
Qed.

Lemma Index_HasPrefix s sep : HasPrefix s sep = true -> Index s sep = Some 0.
Proof. intros H. destruct s; simpl; by rewrite H. Qed.

(** A separator without border occurs in [c ++ sep ++ r] first behind
    [c], if it does not occur in [c]. *)
Lemma prefix_overlap sep c r :
  c <> [] -> HasPrefix (c ++ sep ++ r) sep = true ->
  occurs sep c \/ bordered sep.
Proof.
  intros Hc [t Ht]%HasPrefix_iff.
  apply app_eq_inv in Ht as [(k & -> & _)|(k & Hsep & Hk)].
  - left. by exists [], k.
  - destruct k as [|y k].
    { left. exists [], []. rewrite app_nil_r in Hsep. subst c.
      simpl. by rewrite app_nil_r. }
    right. exists (length (y :: k)).
    assert (Hlen : length sep = length c + length (y :: k))
      by (rewrite Hsep; apply length_app).
    split.
    + destruct c; [done|]. simpl in *. lia.
    + replace (length sep - length (y :: k)) with (length c) by lia.
      rewrite Hsep at 2. rewrite drop_app_length.
      apply (f_equal (take (length (y :: k)))) in Hk.
      rewrite take_app_length in Hk.
      by rewrite take_app_le in Hk by lia.
Qed.

Lemma Index_app_sep sep c r :
  ~ bordered sep -> ~ occurs sep c ->
  Index (c ++ sep ++ r) sep = Some (length c).
Proof.
  intros Hb. induction c as [|x c IH]; intros Hc; simpl.
  - simpl. apply Index_HasPrefix, HasPrefix_app.
  - destruct (HasPrefix (x :: c ++ sep ++ r) sep) eqn:E.
    + exfalso. destruct (prefix_overlap sep (x :: c) r) as [H|H]; done.
    + rewrite IH; [done|]. intros H. apply Hc. by apply occurs_cons.
Qed.

(** Fuel beyond the length of the string changes nothing. *)
Lemma Index_Some_length s sep m :
  Index s sep = Some m -> m + length sep <= length s.
Proof.
  assert (Hp : forall t, HasPrefix t sep = true -> length sep <= length t).
  { intros t [u ->]%HasPrefix_iff. rewrite length_app. lia. }
  revert m; induction s as [|x s IH]; intros m; simpl.
  - destruct (HasPrefix [] sep) eqn:E; [|done]. intros [= <-].
    apply Hp in E. simpl in *. lia.
  - destruct (HasPrefix (x :: s) sep) eqn:E.
    + intros [= <-]. apply Hp in E. simpl in *. lia.
    + destruct (Index s sep) as [m'|]; [|done]. simpl. intros [= <-].
      specialize (IH m' eq_refl). lia.
Qed.

Lemma Index_nil sep : sep <> [] -> Index [] sep = None.
Proof. by destruct sep. Qed.

Lemma split_loop_nil k sep : sep <> [] -> split_loop k [] sep = [[]].
Proof.
  intros Hsep. destruct k; [done|].
  cbn [split_loop]. by rewrite Index_nil.
Qed.

Lemma split_loop_fuel sep k1 k2 s :
  sep <> [] -> length s <= k1 -> length s <= k2 ->
  split_loop k1 s sep = split_loop k2 s sep.
Proof.
  intros Hsep. revert k2 s.
  assert (Hpos : 0 < length sep) by (destruct sep; [done|simpl; lia]).
  induction k1 as [|k1 IH]; intros k2 s H1 H2.
  - destruct s; [|simpl in H1; lia]. by rewrite !split_loop_nil.
  - destruct k2 as [|k2].
    + destruct s; [|simpl in H2; lia]. by rewrite !split_loop_nil.
    + cbn [split_loop]. destruct (Index s sep) as [m|] eqn:E; [|done].
      pose proof (Index_Some_length _ _ _ E).
      f_equal. apply IH; rewrite length_drop; lia.
Qed.

Lemma Split_no_occurrence s sep : ~ occurs sep s -> Split s sep = [s].
Proof.
  intros H%Index_None. unfold Split.
  destruct (length s); simpl; [done|]. by rewrite H.
Qed.

Lemma Split_app_sep sep c r :
  sep <> [] -> ~ bordered sep -> ~ occurs sep c ->
  Split (c ++ sep ++ r) sep = c :: Split r sep.
Proof.
  intros Hsep Hb Hc. unfold Split.
  assert (Hpos : 0 < length sep) by (destruct sep; [done|simpl; lia]).
  rewrite !length_app.
  destruct (length c + (length sep + length r)) as [|k] eqn:Ek; [lia|].
  simpl. rewrite Index_app_sep by done.
  rewrite take_app_length. f_equal.
  rewrite app_assoc, <- length_app, drop_app_length.
  apply split_loop_fuel; [done|lia|lia].
Qed.

Lemma Join_cons e e' rest sep :
  Join (e :: e' :: rest) sep = e ++ sep ++ Join (e' :: rest) sep.
Proof. done. Qed.

(** Splitting what [Join] put together gives the pieces back. *)
Lemma Split_Join sep elems :
  sep <> [] -> ~ bordered sep -> elems <> [] ->
  Forall (fun e => ~ occurs sep e) elems ->
  Split (Join elems sep) sep = elems.
Proof.
  intros Hsep Hb. induction elems as [|e [|e' rest] IH]; intros Hne Hall.
  - done.
  - simpl. apply Split_no_occurrence. by inversion Hall.
  - rewrite Join_cons. inversion Hall; subst.
    rewrite Split_app_sep by done. f_equal. by apply IH.
Qed.

(** The pieces of [Split] contain no separator, and joining them gives
    the string back. *)
Lemma split_loop_pieces sep k s :
  sep <> [] -> length s <= k ->
  Forall (fun c => ~ occurs sep c) (split_loop k s sep) /\
  Join (split_loop k s sep) sep = s /\
  split_loop k s sep <> [].
Proof.
  intros Hsep. revert s.
  assert (Hpos : 0 < length sep) by (destruct sep; [done|simpl; lia]).
  induction k as [|k IH]; intros s Hk.
  - destruct s; [|simpl in Hk; lia]. simpl.
    split_and!; [|done|done]. constructor; [|done]. by apply occurs_nil.
  - cbn [split_loop]. destruct (Index s sep) as [m|] eqn:E.
    + pose proof (Index_Some_length _ _ _ E).
      destruct (Index_Some _ _ _ E) as [Hs Hno].
      destruct (IH (drop (m + length sep) s)) as (H1 & H2 & H3).
      { rewrite length_drop. lia. }
      split_and!; [|..|done].
      * constructor; [by apply Hno|done].
      * destruct (split_loop k (drop (m + length sep) s) sep) eqn:El; [done|].
        rewrite Join_cons, H2. by rewrite <- Hs.
    + split_and!; [|done|done]. constructor; [|done]. by apply Index_None.
Qed.

Lemma Split_pieces sep s :
  sep <> [] ->
  Forall (fun c => ~ occurs sep c) (Split s sep) /\
  Join (Split s sep) sep = s /\ Split s sep <> [].
Proof. intros. by apply split_loop_pieces. Qed.

End StringFacts.


Section TrimFacts.

Implicit Types s p : gostring.
Implicit Types pats : list gostring.

Lemma cut_leading_Some pats s s' :
  cut_leading pats s = Some s' -> exists p, p ∈ pats /\ s = p ++ s'.
Proof.
  induction pats as [|p pats IH]; simpl; [done|].
  destruct (HasPrefix s p) eqn:E.
  - intros [= <-]. exists p. split; [left|]. by apply HasPrefix_true.
  - intros (q & Hq & Hs)%IH. exists q. split; [by right|done].
Qed.

Lemma cut_leading_None pats s :
  cut_leading pats s = None <-> Forall (fun p => HasPrefix s p = false) pats.
Proof.
  induction pats as [|p pats IH]; simpl.
  - split; [constructor|done].
  - destruct (HasPrefix s p) eqn:E.
    + split; [done|]. inversion 1; congruence.
    + rewrite IH. split; [by constructor|by inversion 1].
Qed.

(** What [strip_leading] removes is made of bytes of the patterns. *)
Lemma strip_leading_split k pats s :
  exists u, s = u ++ strip_leading k pats s /\
            Forall (fun c => c ∈ concat pats) u.
Proof.
  revert s; induction k as [|k IH]; intros s; simpl.
  - by exists [].
  - destruct (cut_leading pats s) as [s'|] eqn:E; [|by exists []].
    apply cut_leading_Some in E as (p & Hp & ->).
    destruct (IH s') as (u & Hu & Hall). exists (p ++ u). split.
    + rewrite <- app_assoc. by f_equal.
    + apply Forall_app. split; [|done].
      apply Forall_forall. intros c Hc.
      apply list_elem_of_In, in_concat. exists p.
      split; by apply list_elem_of_In.
Qed.

(** With fuel for every byte, nothing is left to remove. *)
Lemma strip_leading_done k pats s :
  Forall (fun p => p <> []) pats -> length s <= k ->
  cut_leading pats (strip_leading k pats s) = None.
Proof.
  intros Hpats. revert s; induction k as [|k IH]; intros s Hk; simpl.
  - destruct s; [|simpl in Hk; lia]. apply cut_leading_None.
    eapply Forall_impl; [exact Hpats|]. intros p Hp. by destruct p.
  - destruct (cut_leading pats s) as [s'|] eqn:E; [|done].
    apply IH. apply cut_leading_Some in E as (p & Hp & ->).
    rewrite Forall_forall in Hpats. specialize (Hpats p Hp).
    rewrite length_app in Hk. destruct p; [done|]. simpl in Hk. lia.
Qed.

Lemma strip_leading_fixed k pats s :
  cut_leading pats s = None -> strip_leading k pats s = s.
Proof. intros H. destruct k; simpl; [done|]. by rewrite H. Qed.

Lemma space_encodings_nonempty : Forall (fun p => p <> []) space_encodings.
Proof. repeat constructor; done. Qed.

Lemma rev_space_encodings_nonempty :
  Forall (fun p => p <> []) (map (@rev ascii) space_encodings).
Proof. repeat constructor; done. Qed.

Lemma TrimLeftSpace_done s :
  cut_leading space_encodings (TrimLeftSpace s) = None.
Proof. apply strip_leading_done; [apply space_encodings_nonempty|done]. Qed.

Lemma TrimRightSpace_done s :
  cut_leading (map (@rev ascii) space_encodings) (rev (TrimRightSpace s)) = None.
Proof.
  unfold TrimRightSpace. rewrite rev_involutive.
  apply strip_leading_done; [apply rev_space_encodings_nonempty|].
  by rewrite length_rev.
Qed.

Lemma TrimLeftSpace_fixed s :
  cut_leading space_encodings s = None -> TrimLeftSpace s = s.
Proof. apply strip_leading_fixed. Qed.

Lemma TrimRightSpace_fixed s :
  cut_leading (map (@rev ascii) space_encodings) (rev s) = None ->
  TrimRightSpace s = s.
Proof.
  intros H. unfold TrimRightSpace.
  rewrite strip_leading_fixed by done. apply rev_involutive.
Qed.

Lemma TrimLeftSpace_split s :
  exists u, s = u ++ TrimLeftSpace s /\
            Forall (fun c => c ∈ concat space_encodings) u.
Proof. apply strip_leading_split. Qed.

Lemma TrimRightSpace_split s :
  exists v, s = TrimRightSpace s ++ v /\
            Forall (fun c => c ∈ concat (map (@rev ascii) space_encodings)) v.
Proof.
  unfold TrimRightSpace.
  destruct (strip_leading_split (length s)
              (map (@rev ascii) space_encodings) (rev s)) as (u & Hu & Hall).
  exists (rev u). split.
  - rewrite <- rev_app_distr, <- Hu. by rewrite rev_involutive.
  - apply Forall_forall. intros c Hc. rewrite Forall_forall in Hall.
    apply Hall. apply list_elem_of_In. apply list_elem_of_In in Hc.
    by apply in_rev.
Qed.

(** [TrimSpace s] is a substring of [s]; around it are bytes of white
    space only. *)
Lemma TrimSpace_split s :
  exists u v, s = u ++ TrimSpace s ++ v /\
    Forall (fun c => c ∈ concat space_encodings) u /\
    Forall (fun c => c ∈ concat (map (@rev ascii) space_encodings)) v.
Proof.
  destruct (TrimLeftSpace_split s) as (u & Hu & Hau).
  destruct (TrimRightSpace_split (TrimLeftSpace s)) as (v & Hv & Hav).
  exists u, v. unfold TrimSpace. by rewrite <- Hv.
Qed.

Lemma TrimSpace_no_occurrence sep s :
  ~ occurs sep s -> ~ occurs sep (TrimSpace s).
Proof.
  intros H Ho. apply H.
  destruct (TrimSpace_split s) as (u & v & Hs & _).
  rewrite Hs. by apply occurs_infix.
Qed.

Lemma cut_leading_None_prefix pats s v :
  Forall (fun p => p <> []) pats ->
  cut_leading pats (s ++ v) = None -> cut_leading pats s = None.
Proof.
  intros Hne. rewrite !cut_leading_None, !Forall_forall.
  intros H p Hp. specialize (H p Hp).
  destruct (HasPrefix s p) eqn:E; [|done].
  apply HasPrefix_iff in E as [r ->].
  rewrite <- app_assoc, HasPrefix_app in H. done.
Qed.

(** Trimming twice is trimming once. *)
Lemma TrimSpace_idemp s : TrimSpace (TrimSpace s) = TrimSpace s.
Proof.
  unfold TrimSpace at 1.
  rewrite TrimLeftSpace_fixed.
  - apply TrimRightSpace_fixed. unfold TrimSpace. apply TrimRightSpace_done.
  - unfold TrimSpace.
    destruct (TrimRightSpace_split (TrimLeftSpace s)) as (v & Hv & _).
    apply (cut_leading_None_prefix _ _ v); [apply space_encodings_nonempty|].
    rewrite <- Hv. apply TrimLeftSpace_done.
Qed.

Lemma TrimSpace_nil : TrimSpace [] = [].
Proof. done. Qed.


Lemma breakpoint_nonempty : breakpoint <> [].
Proof. done. Qed.

(** No proper prefix of the marker is a suffix of it. *)
Lemma breakpoint_unbordered : ~ bordered breakpoint.
Proof.
  intros (k & Hk & H). change (length breakpoint) with 23 in *.
  assert (Hall : forallb (fun k =>
            negb (bool_decide (take k breakpoint = drop (23 - k) breakpoint)))
            (seq 1 22) = true) by (vm_compute; reflexivity).
  rewrite forallb_forall in Hall. specialize (Hall k).
  rewrite negb_true_iff, bool_decide_eq_false in Hall.
  apply Hall; [|done]. apply in_seq. lia.
Qed.

End TrimFacts.


(* ===================================================================== *)
(** * The loader *)
(* ===================================================================== *)

Section LoaderFacts.

Lemma collect_statements_filter chunks :
  collect_statements chunks =
  List.filter (fun s => negb (bool_decide (s = []))) (map TrimSpace chunks).
Proof.
  induction chunks as [|c chunks IH]; simpl; [done|].
  destruct (TrimSpace c) eqn:E; simpl; by rewrite IH.
Qed.

Lemma collect_statements_fixed stmts :
  Forall (fun s => s <> [] /\ TrimSpace s = s) stmts ->
  collect_statements stmts = stmts.
Proof.
  induction 1 as [|s stmts [Hne Ht] _ IH]; simpl; [done|].
  rewrite Ht, IH. by destruct s.
Qed.

Lemma collect_statements_trimmed chunks :
  Forall (fun c => ~ occurs breakpoint c) chunks ->
  Forall (fun s => ~ occurs breakpoint s /\ s <> [] /\ TrimSpace s = s)
         (collect_statements chunks).
Proof.
  induction 1 as [|c chunks Hc _ IH]; simpl; [constructor|].
  destruct (TrimSpace c) eqn:E; [done|]. constructor; [|done].
  rewrite <- E. split_and!.
  - by apply TrimSpace_no_occurrence.
  - by rewrite E.
  - apply TrimSpace_idemp.
Qed.

(** What a loaded entry looks like. *)
Lemma load_entry_Some f m :
  load_entry f = Ok (Some m) ->
  entry_is_dir f = false /\
  HasSuffix (entry_name f) (str ".sql") = true /\
  entry_data f = Some (Raw m) /\
  SplitN (entry_name f) (str "_") 2 = [Version m; Name m] /\
  Statements m = collect_statements (Split (Raw m) breakpoint) /\
  Hash m = computeHash (Raw m).
Proof.
  unfold load_entry.
  destruct (entry_is_dir f), (HasSuffix (entry_name f) (str ".sql"));
    cbn [orb negb]; try done.
  destruct (entry_data f) as [raw|]; [|done].
  destruct (SplitN (entry_name f) (str "_") 2) as [|v [|n [|??]]]; try done.
  by intros [= <-].
Qed.

Lemma underscore_unbordered : ~ bordered (str "_").
Proof. intros (k & Hk & _). simpl in Hk. lia. Qed.

Lemma occurs_singleton (c : ascii) (s : gostring) : occurs [c] s <-> c ∈ s.
Proof.
  split.
  - intros (l & r & ->). apply elem_of_app. right. by left.
  - intros (l & r & ->)%list_elem_of_split. by exists l, r.
Qed.

(** [SplitN(name, "_", 2)] has two parts exactly when there is an
    underscore, and cuts at the first one. *)
Lemma SplitN_underscore (name : gostring) :
  ("_"%char ∈ name ->
     exists m, Index name (str "_") = Some m /\
       SplitN name (str "_") 2 = [take m name; drop (m + 1) name]) /\
  ("_"%char ∉ name -> SplitN name (str "_") 2 = [name]).
Proof.
  unfold SplitN. split.
  - intros Hin. destruct (Index name (str "_")) as [m|] eqn:E.
    + exists m. split; [done|].
      pose proof (Index_Some_length _ _ _ E) as Hl. simpl in Hl.
      replace (2 `min` (length name + 1) - 1) with 1 by lia.
      cbn [split_loop]. rewrite E. reflexivity.
    + apply Index_None in E. exfalso. apply E. by apply occurs_singleton.
  - intros Hnin.
    assert (E : Index name (str "_") = None).
    { apply Index_None. intros H. by apply (occurs_singleton "_") in H. }
    destruct (2 `min` (length name + 1) - 1); cbn [split_loop]; [done|].
    by rewrite E.
Qed.

Lemma HasSuffix_app (s suffix : gostring) : HasSuffix (s ++ suffix) suffix = true.
Proof.
  unfold HasSuffix. rewrite length_app.
  apply andb_true_iff. split.
  - apply Nat.leb_le. lia.
  - apply bool_decide_eq_true.
    replace (length s + length suffix - length suffix) with (length s) by lia.
    apply drop_app_length.
Qed.

Lemma load_loop_app files1 files2 acc :
  load_loop (files1 ++ files2) acc =
  match load_loop files1 acc with
  | Ok acc' => load_loop files2 acc'
  | Err e => Err e
  end.
Proof.
  revert acc; induction files1 as [|f files1 IH]; intros acc; simpl; [done|].
  destruct (load_entry f) as [[m|]|e]; by rewrite ?IH.
Qed.

End LoaderFacts.

(** ** C9 *)

(** C9.  Splitting is idempotent: the statements of any content, rejoined
    with the marker and split and trimmed again, are the same statements. *)
Theorem statement_splitting_idempotent (raw : gostring) :
  let statements := collect_statements (Split raw breakpoint) in
  collect_statements (Split (Join statements breakpoint) breakpoint) = statements.
Proof.
  intros stmts.
  destruct (Split_pieces breakpoint raw breakpoint_nonempty) as (Hno & _ & _).
  pose proof (collect_statements_trimmed _ Hno) as Hst.
  fold stmts in Hst. clearbody stmts.
  destruct stmts as [|s stmts]; [done|].
  rewrite Split_Join.
  - apply collect_statements_fixed.
    eapply Forall_impl; [exact Hst|]. by intros ? (_ & ? & ?).
  - apply breakpoint_nonempty.
  - apply breakpoint_unbordered.
  - done.
  - eapply Forall_impl; [exact Hst|]. by intros ? (? & _).
Qed.

(** ** C3 *)

(** C3, as the code has it.  The statements of a loaded file are the chunks
    between the occurrences of the marker text, trimmed, without the empty
    ones and in order: the chunks joined by the marker are the content, and
    the marker occurs in none of them, so the content is cut at every
    occurrence, whether it is a line of its own or not.  Content without the
    marker gives the trimmed content as the only statement, or none when it
    trims to nothing. *)
Theorem statements_split_at_marker_text (f : DirEntry) (m : Migration) :
  load_entry f = Ok (Some m) ->
  let chunks := Split (Raw m) breakpoint in
  entry_data f = Some (Raw m) /\
  Join chunks breakpoint = Raw m /\
  Forall (fun c => ~ occurs breakpoint c) chunks /\
  Statements m =
    List.filter (fun s => negb (bool_decide (s = []))) (map TrimSpace chunks) /\
  (~ occurs breakpoint (Raw m) ->
   Statements m = match TrimSpace (Raw m) with
                  | [] => []
                  | _ :: _ => [TrimSpace (Raw m)]
                  end).
Proof.
  intros (_ & _ & Hdata & _ & Hst & _)%load_entry_Some chunks.
  destruct (Split_pieces breakpoint (Raw m) breakpoint_nonempty) as (Hno & Hj & _).
  split_and!; try done.
  - by rewrite Hst, collect_statements_filter.
  - intros H. rewrite Hst, Split_no_occurrence by done. simpl.
    by destruct (TrimSpace (Raw m)).
Qed.

Lemma statements_split_at_marker_text_witness :
  exists m, load_entry marker_inside_line = Ok (Some m) /\
    Join (Split (Raw m) breakpoint) breakpoint = Raw m /\
    Statements m = [str "SELECT 1;"; str "SELECT 2;"].
Proof.
  eexists. split; [reflexivity|].
  destruct (statements_split_at_marker_text marker_inside_line _ eq_refl)
    as (_ & Hj & _ & Hs & _).
  split; [exact Hj|]. rewrite Hs. vm_compute. reflexivity.
Defined.

(** C3 as the specification words it fails: a marker inside a line cuts the
    content in the code, and does not when only marker lines cut. *)
Lemma marker_inside_line_splits :
  exists m raw,
    load_entry marker_inside_line = Ok (Some m) /\
    entry_data marker_inside_line = Some raw /\
    spec_statements_by_line raw = [raw] /\
    Statements m = [str "SELECT 1;"; str "SELECT 2;"] /\
    Statements m <> spec_statements_by_line raw.
Proof.
  eexists. eexists. split; [reflexivity|]. split; [reflexivity|].
  split; [vm_compute; reflexivity|]. split; [vm_compute; reflexivity|].
  vm_compute. discriminate.
Qed.


(** ** C4 *)

(** C4, as the code has it.  For a file named [{version}_{name}.sql] whose
    version has no underscore, the loader recovers the version, and as name
    everything behind the first underscore: [{name}.sql], extension
    included, whether or not [name] has underscores. *)
Theorem filename_version_and_name (version name raw : gostring) :
  "_"%char ∉ version ->
  exists m,
    load_entry (mkEntry (version ++ str "_" ++ name ++ str ".sql") false (Some raw))
      = Ok (Some m) /\
    Version m = version /\
    Name m = name ++ str ".sql".
Proof.
  intros Hv. unfold load_entry. cbn [entry_is_dir entry_name entry_data orb].
  replace (version ++ str "_" ++ name ++ str ".sql")
    with ((version ++ str "_" ++ name) ++ str ".sql")
    by (by rewrite <- !app_assoc).
  rewrite HasSuffix_app. cbn [negb].
  rewrite <- !app_assoc.
  destruct (SplitN_underscore (version ++ str "_" ++ name ++ str ".sql"))
    as [Hin _].
  destruct Hin as (k & Hk & ->).
  { apply elem_of_app. right. by left. }
  rewrite Index_app_sep in Hk.
  - injection Hk as <-. eexists. split; [reflexivity|]. cbn [Version Name].
    split.
    + apply take_app_length.
    + replace (length version + 1) with (length (version ++ str "_"))
        by (rewrite length_app; reflexivity).
      rewrite (app_assoc version). apply drop_app_length.
  - apply underscore_unbordered.
  - intros H. by apply (occurs_singleton "_") in H.
Qed.

Lemma filename_version_and_name_witness :
  exists m,
    load_entry (mkEntry (str "20240101120000_create_users_table.sql") false
                  (Some (str "SELECT 1;"))) = Ok (Some m) /\
    Version m = str "20240101120000" /\
    Name m = str "create_users_table.sql".
Proof.
  apply (filename_version_and_name (str "20240101120000")
           (str "create_users_table") (str "SELECT 1;")).
  vm_compute. intros H.
  repeat (apply elem_of_cons in H as [H|H]; [discriminate H|]).
  by apply elem_of_nil in H.
Defined.

(** C4 as the specification words it fails: the name the loader recovers
    keeps the extension. *)
Lemma name_keeps_extension :
  ~ (forall version name raw : gostring,
       "_"%char ∉ version ->
       exists m,
         load_entry (mkEntry (version ++ str "_" ++ name ++ str ".sql") false
                       (Some raw)) = Ok (Some m) /\
         Version m = version /\ Name m = name).
Proof.
  intros H.
  destruct (H (str "20240101120000") (str "create_users_table") [])
    as (m & Hm & _ & Hn).
  - vm_compute. intros Hin.
    repeat (apply elem_of_cons in Hin as [Hin|Hin]; [discriminate Hin|]).
    by apply elem_of_nil in Hin.
  - vm_compute in Hm. injection Hm as <-. vm_compute in Hn. discriminate Hn.
Qed.

(** ** C5 *)

Lemma load_entry_invalid_name f n :
  load_entry f = Err (ErrInvalidName n) <->
  entry_is_dir f = false /\
  HasSuffix (entry_name f) (str ".sql") = true /\
  is_Some (entry_data f) /\
  ("_"%char ∉ entry_name f) /\
  n = entry_name f.
Proof.
  unfold load_entry.
  destruct (entry_is_dir f), (HasSuffix (entry_name f) (str ".sql"));
    cbn [orb negb]; try (split; [done|by intros (? & ? & _)]).
  destruct (entry_data f) as [raw|].
  2:{ split; [done|]. by intros (_ & _ & [? ?] & _). }
  destruct (SplitN_underscore (entry_name f)) as [Hin Hnin].
  destruct (decide ("_"%char ∈ entry_name f)) as [H|H].
  - destruct (Hin H) as (k & _ & ->). split; [done|]. by intros (_ & _ & _ & ? & _).
  - rewrite (Hnin H). split.
    + intros [= <-]. by split_and!.
    + by intros (_ & _ & _ & _ & ->).
Qed.

Lemma load_loop_Err files acc e :
  load_loop files acc = Err e <->
  exists pre f post,
    files = pre ++ f :: post /\
    Forall (fun g => exists r, load_entry g = Ok r) pre /\
    load_entry f = Err e.
Proof.
  revert acc; induction files as [|f files IH]; intros acc; simpl.
  - split; [done|]. by intros ([|??] & ? & ? & ? & _).
  - destruct (load_entry f) as [r|e'] eqn:E.
    + assert (Hgo : forall acc', load_loop files acc' = Err e <->
        exists pre f0 post, f :: files = pre ++ f0 :: post /\
          Forall (fun g => exists r, load_entry g = Ok r) pre /\
          load_entry f0 = Err e).
      { intros acc'. rewrite IH. split.
        - intros (pre & f0 & post & -> & Hpre & Hf0).
          exists (f :: pre), f0, post. split_and!; [done| |done].
          constructor; [by exists r|done].
        - intros ([|g pre] & f0 & post & Heq & Hpre & Hf0).
          + injection Heq as -> ->. congruence.
          + injection Heq as -> ->. exists pre, f0, post.
            split_and!; [done| |done]. by inversion Hpre. }
      destruct r; apply Hgo.
    + split.
      * intros [= <-]. exists [], f, files. by split_and!.
      * intros ([|g pre] & f0 & post & Heq & Hpre & Hf0).
        -- injection Heq as -> ->. congruence.
        -- injection Heq as -> ->. inversion Hpre as [|?? [r Hr]]; congruence.
Qed.

(** C5, as the code has it.  Loading an entry fails with the invalid-name
    error exactly when it is a readable [.sql] file whose name has no
    underscore, and the loader fails with that error exactly when the first
    entry that does not load fails with it.  No file is rejected for an empty
    part. *)
Theorem invalid_name_iff_no_underscore
    (sortSlice : list Migration -> (Migration -> Migration -> bool) -> list Migration)
    (files : list DirEntry) (f : DirEntry) (n : gostring) :
  (load_entry f = Err (ErrInvalidName n) <->
   entry_is_dir f = false /\
   HasSuffix (entry_name f) (str ".sql") = true /\
   is_Some (entry_data f) /\
   ("_"%char ∉ entry_name f) /\
   n = entry_name f) /\
  (loadLocalMigrations sortSlice (Some files) = Err (ErrInvalidName n) <->
   exists pre g post,
     files = pre ++ g :: post /\
     Forall (fun g' => exists r, load_entry g' = Ok r) pre /\
     load_entry g = Err (ErrInvalidName n)).
Proof.
  split; [apply load_entry_invalid_name|].
  unfold loadLocalMigrations.
  rewrite <- (load_loop_Err files []).
  destruct (load_loop files []); [split; intros H; discriminate H|reflexivity].
Qed.

(** C5 as the specification words it fails: a name that begins with the
    underscore is loaded, with the empty version. *)
Lemma empty_version_accepted :
  exists ms m,
    loadLocalMigrations insertionSort
      (Some [mkEntry (str "_x.sql") false (Some (str "SELECT 1;"))]) = Ok ms /\
    ms = [m] /\ Version m = [] /\ Name m = str "x.sql".
Proof. eexists. eexists. vm_compute. by split_and!. Qed.


(** ** C7 *)

Section HashFacts.

(** The model of the digest on the standard test vectors. *)
Example computeHash_empty :
  computeHash [] =
  str "e3b0c44298fc1c149afbf4c8996fb92427ae41e4649b934ca495991b7852b855".
Proof. vm_compute. reflexivity. Qed.

Example computeHash_abc :
  computeHash (str "abc") =
  str "ba7816bf8f01cfea414140de5dae2223b00361a396177a9cb410ff61f20015ad".
Proof. vm_compute. reflexivity. Qed.

Example computeHash_two_blocks :
  computeHash (str "abcdbcdecdefdefgefghfghighijhijkijkljklmklmnlmnomnopnopq") =
  str "248d6a61d20638b8e5c026930c3e6039a33ce45964ff2167f6ecedd419db06c1".
Proof. vm_compute. reflexivity. Qed.

Lemma Sum256_length (data : gostring) : length (sha256.Sum256 data) = 32.
Proof.
  unfold sha256.Sum256.
  by destruct (sha256.blocks _ sha256.init (sha256.pad data)).
Qed.

Lemma EncodeToString_length (src : gostring) :
  length (hex.EncodeToString src) = 2 * length src.
Proof.
  induction src as [|b src IH]; [done|].
  unfold hex.EncodeToString in *. cbn [flat_map].
  rewrite length_app, IH. cbn [length]. lia.
Qed.

Lemma hextable_nth (i : nat) :
  i < 16 -> is_hex_digit (nth i hex.hextable "0"%char).
Proof.
  intros Hi. unfold is_hex_digit.
  do 16 (destruct i as [|i];
         [apply (bool_decide_unpack _); vm_compute; exact I|]).
  lia.
Qed.

Lemma EncodeToString_digits (src : gostring) :
  Forall is_hex_digit (hex.EncodeToString src).
Proof.
  induction src as [|b src IH]; [constructor|].
  pose proof (nat_ascii_bounded b) as Hb.
  unfold hex.EncodeToString in *. cbn [flat_map app].
  constructor; [|constructor; [|exact IH]]; apply hextable_nth.
  - apply Nat.Div0.div_lt_upper_bound. lia.
  - apply Nat.mod_upper_bound. lia.
Qed.

End HashFacts.

(** C7.  The hash of a loaded migration is [computeHash] of the content of
    its file as read, not of its statements; it has 64 hexadecimal digits;
    two files of the same content get the same hash whatever their names;
    and content that differs only by white space next to a marker, which
    gives the same statements, is other input to the hash (and here another
    digest). *)
Theorem hash_of_raw_content (f1 f2 : DirEntry) (m1 m2 : Migration) :
  load_entry f1 = Ok (Some m1) ->
  load_entry f2 = Ok (Some m2) ->
  entry_data f1 = Some (Raw m1) /\
  Hash m1 = computeHash (Raw m1) /\
  length (Hash m1) = 64 /\
  Forall is_hex_digit (Hash m1) /\
  (entry_data f1 = entry_data f2 -> Hash m1 = Hash m2) /\
  (exists g1 g2 n1 n2,
      load_entry g1 = Ok (Some n1) /\ load_entry g2 = Ok (Some n2) /\
      Statements n1 = Statements n2 /\
      Raw n1 <> Raw n2 /\ Hash n1 <> Hash n2).
Proof.
  intros (_ & _ & Hd1 & _ & _ & Hh1)%load_entry_Some
         (_ & _ & Hd2 & _ & _ & Hh2)%load_entry_Some.
  split_and!; try done.
  - rewrite Hh1. unfold computeHash.
    by rewrite EncodeToString_length, Sum256_length.
  - rewrite Hh1. apply EncodeToString_digits.
  - rewrite Hd1, Hd2. intros [= Heq]. by rewrite Hh1, Hh2, Heq.
  - exists tight_file, airy_file. eexists. eexists.
    split; [reflexivity|]. split; [reflexivity|].
    split; [vm_compute; reflexivity|].
    split; vm_compute; discriminate.
Qed.

Lemma hash_of_raw_content_witness :
  exists m1 m2,
    load_entry tight_file = Ok (Some m1) /\
    load_entry airy_file = Ok (Some m2) /\
    Hash m1 = computeHash (Raw m1) /\ length (Hash m1) = 64.
Proof.
  eexists. eexists. split; [reflexivity|]. split; [reflexivity|].
  destruct (hash_of_raw_content tight_file airy_file _ _ eq_refl eq_refl)
    as (_ & H1 & H2 & _).
  split; [exact H1|exact H2].
Defined.


(** ** C6 *)

Section SortFacts.

Lemma N_of_ascii_inj (x y : ascii) : N_of_ascii x = N_of_ascii y -> x = y.
Proof.
  intros H. rewrite <- (ascii_N_embedding x), <- (ascii_N_embedding y).
  by rewrite H.
Qed.

Lemma string_lt_irrefl (a : gostring) : string_lt a a = false.
Proof.
  induction a as [|x a IH]; simpl; [done|].
  by rewrite N.ltb_irrefl.
Qed.

(** [string_lt] is the lexical order. *)
Lemma string_lt_lexical (a b : gostring) :
  string_lt a b = true <-> lexical_lt a b.
Proof.
  split.
  - revert b; induction a as [|x a IH]; intros [|y b]; simpl; try done.
    + intros _. left. by exists (y :: b).
    + destruct (N.ltb_spec (N_of_ascii x) (N_of_ascii y)) as [Hlt|Hge].
      { intros _. right. by exists [], x, y, a, b. }
      destruct (N.ltb_spec (N_of_ascii y) (N_of_ascii x)); [done|].
      assert (x = y) as -> by (apply N_of_ascii_inj; lia).
      intros [(r & Hr & ->)|(p & x' & y' & ra & rb & -> & -> & Hlt)]%IH.
      * left. by exists r.
      * right. by exists (y :: p), x', y', ra, rb.
  - intros [(r & Hr & ->)|(p & x & y & ra & rb & -> & -> & Hlt)].
    + induction a as [|x a IH]; simpl.
      * by destruct r.
      * by rewrite N.ltb_irrefl.
    + induction p as [|c p IH]; simpl.
      * by apply N.ltb_lt in Hlt as ->.
      * by rewrite N.ltb_irrefl.
Qed.

Lemma string_lt_trichotomy (a b : gostring) :
  string_lt a b = true \/ a = b \/ string_lt b a = true.
Proof.
  revert b; induction a as [|x a IH]; intros [|y b]; simpl; auto.
  destruct (N.ltb_spec (N_of_ascii x) (N_of_ascii y)); [auto|].
  destruct (N.ltb_spec (N_of_ascii y) (N_of_ascii x)); [auto|].
  assert (x = y) as -> by (apply N_of_ascii_inj; lia).
  destruct (IH b) as [?|[->|?]]; auto.
Qed.

Lemma string_lt_trans (a b c : gostring) :
  string_lt a b = true -> string_lt b c = true -> string_lt a c = true.
Proof.
  revert b c; induction a as [|x a IH]; intros [|y b] [|z c]; simpl; try done.
  destruct (N.ltb_spec (N_of_ascii x) (N_of_ascii y)),
           (N.ltb_spec (N_of_ascii y) (N_of_ascii z)),
           (N.ltb_spec (N_of_ascii x) (N_of_ascii z));
    try done; try lia.
  - destruct (N.ltb_spec (N_of_ascii z) (N_of_ascii y)); [done|lia].
  - destruct (N.ltb_spec (N_of_ascii y) (N_of_ascii x)); [done|lia].
  - destruct (N.ltb_spec (N_of_ascii y) (N_of_ascii x)); [done|].
    destruct (N.ltb_spec (N_of_ascii z) (N_of_ascii y)); [done|].
    destruct (N.ltb_spec (N_of_ascii z) (N_of_ascii x)); [lia|].
    apply IH.
Qed.

Lemma string_lt_asym (a b : gostring) :
  string_lt a b = true -> string_lt b a = false.
Proof.
  intros H. destruct (string_lt b a) eqn:E; [|done].
  pose proof (string_lt_trans _ _ _ H E) as Hc.
  by rewrite string_lt_irrefl in Hc.
Qed.

Lemma version_less_swo : StrictWeakOrder version_less.
Proof.
  split; unfold version_less.
  - intros a b. apply string_lt_asym.
  - intros a b c Hac.
    destruct (string_lt_trichotomy (Version a) (Version b)) as [?|[E|?]]; auto.
    + right. by rewrite <- E.
    + right. by eapply string_lt_trans.
Qed.

Context {A : Type} (less : A -> A -> bool).

Lemma sift_Permutation x r : Permutation (sift less x r) (x :: r).
Proof.
  induction r as [|y r IH]; simpl; [done|].
  destruct (less x y); [|done].
  rewrite IH. apply perm_swap.
Qed.

Lemma sift_sorted x r :
  StrictWeakOrder less ->
  StronglySorted (fun a b => less a b = false) r ->
  StronglySorted (fun a b => less a b = false) (sift less x r).
Proof.
  intros [Hasym Hneg]. induction 1 as [|y r Hr IH Hy]; simpl.
  - by repeat constructor.
  - destruct (less x y) eqn:E.
    + constructor; [done|].
      rewrite sift_Permutation. constructor; [|done]. by apply Hasym.
    + constructor; [by constructor|].
      constructor; [done|].
      rewrite Forall_forall in Hy |- *. intros z Hz.
      destruct (less x z) eqn:Exz; [|done].
      destruct (Hneg _ y _ Exz) as [?|Hyz]; [congruence|].
      rewrite (Hy z Hz) in Hyz. done.
Qed.

Lemma StronglySorted_snoc (R : A -> A -> Prop) l x :
  StronglySorted R l -> Forall (fun y => R y x) l ->
  StronglySorted R (l ++ [x]).
Proof.
  induction 1 as [|y l Hl IH Hy]; intros Hx; simpl.
  - by repeat constructor.
  - inversion Hx; subst. constructor; [by apply IH|].
    apply Forall_app. split; [done|]. by constructor.
Qed.

Lemma StronglySorted_rev (R : A -> A -> Prop) l :
  StronglySorted R l -> StronglySorted (fun a b => R b a) (rev l).
Proof.
  induction 1 as [|y l Hl IH Hy]; simpl; [constructor|].
  apply StronglySorted_snoc; [done|].
  apply Forall_forall. intros z Hz. rewrite Forall_forall in Hy.
  apply Hy. apply list_elem_of_In. apply list_elem_of_In in Hz.
  by apply in_rev.
Qed.

Lemma insertion_fold_Permutation l acc :
  Permutation (fold_left (fun rprefix x => sift less x rprefix) l acc)
              (rev l ++ acc).
Proof.
  revert acc; induction l as [|x l IH]; intros acc; simpl; [done|].
  rewrite IH, sift_Permutation, <- app_assoc. done.
Qed.

Lemma insertion_fold_sorted l acc :
  StrictWeakOrder less ->
  StronglySorted (fun a b => less a b = false) acc ->
  StronglySorted (fun a b => less a b = false)
    (fold_left (fun rprefix x => sift less x rprefix) l acc).
Proof.
  intros Hswo. revert acc; induction l as [|x l IH]; intros acc Hacc; simpl.
  - done.
  - apply IH. by apply sift_sorted.
Qed.

Lemma insertionSort_Permutation l : Permutation (insertionSort l less) l.
Proof.
  unfold insertionSort.
  rewrite <- Permutation_rev, insertion_fold_Permutation, app_nil_r.
  symmetry. apply Permutation_rev.
Qed.

Lemma insertionSort_sorted l :
  StrictWeakOrder less ->
  StronglySorted (fun a b => less b a = false) (insertionSort l less).
Proof.
  intros Hswo. unfold insertionSort.
  apply (StronglySorted_rev (fun a b => less a b = false)).
  apply insertion_fold_sorted; [done|constructor].
Qed.

End SortFacts.

Lemma insertionSort_contract : SortSliceContract insertionSort.
Proof.
  intros l less. split.
  - apply insertionSort_Permutation.
  - apply insertionSort_sorted.
Qed.

Lemma reversingSort_contract : SortSliceContract reversingSort.
Proof.
  intros l less. unfold reversingSort. split.
  - rewrite insertionSort_Permutation. symmetry. apply Permutation_rev.
  - apply insertionSort_sorted.
Qed.

(** C6, as the code has it.  The migrations the loader returns are the
    parsed files rearranged in ascending order of version, by the comparison
    of strings of Go, which is the lexical order on bytes (under which
    ["10"] comes before ["9"]), for any [sort.Slice] that does what Go
    documents.  Nothing is promised about migrations of equal version. *)
Theorem loader_sorts_by_version
    (sortSlice : list Migration -> (Migration -> Migration -> bool) -> list Migration)
    (dir : option (list DirEntry)) (ms : list Migration) :
  SortSliceContract sortSlice ->
  loadLocalMigrations sortSlice dir = Ok ms ->
  StronglySorted (fun a b => string_lt (Version b) (Version a) = false) ms /\
  (exists files parsed,
      dir = Some files /\ load_loop files [] = Ok parsed /\
      Permutation ms parsed) /\
  (forall a b, string_lt a b = true <-> lexical_lt a b) /\
  string_lt (str "10") (str "9") = true.
Proof.
  intros Hsort. unfold loadLocalMigrations.
  destruct dir as [files|]; [|done].
  destruct (load_loop files []) as [parsed|] eqn:E; [|done].
  intros [= <-]. destruct (Hsort parsed version_less) as [Hperm Hsorted].
  split_and!.
  - apply Hsorted, version_less_swo.
  - by exists files, parsed.
  - apply string_lt_lexical.
  - reflexivity.
Qed.

Lemma loader_sorts_by_version_witness :
  exists ms,
    loadLocalMigrations insertionSort two_versions = Ok ms /\
    map Version ms = [str "10"; str "9"] /\
    StronglySorted (fun a b => string_lt (Version b) (Version a) = false) ms.
Proof.
  eexists. split; [reflexivity|]. split; [vm_compute; reflexivity|].
  exact (proj1 (loader_sorts_by_version insertionSort two_versions _
                  insertionSort_contract eq_refl)).
Defined.

(** C6 as the specification words it fails: what Go documents of
    [sort.Slice] does not keep migrations of equal version in the order of the
    directory.  Here the two files of version ["1"] come out as [1_b.sql],
    [1_a.sql]. *)
Lemma ties_not_kept :
  ~ (forall sortSlice, SortSliceContract sortSlice ->
       forall files parsed ms,
         load_loop files [] = Ok parsed ->
         loadLocalMigrations sortSlice (Some files) = Ok ms ->
         ties_kept parsed ms).
Proof.
  intros H.
  specialize (H reversingSort reversingSort_contract descending_with_tie _ _
                eq_refl eq_refl (str "1")).
  vm_compute in H. discriminate H.
Qed.

(** ** C8 *)

Section EncoderFacts.

Implicit Types s v : gostring.

Lemma flat_map_unchanged (f : ascii -> gostring) s :
  Forall (fun x => f x = [x]) s -> flat_map f s = s.
Proof. induction 1 as [|x s Hx _ IH]; simpl; [done|]. by rewrite Hx, IH. Qed.

(** Replacing a single byte is replacing it wherever it stands. *)
Lemma replace_loop_byte k s (c : ascii) (new : gostring) :
  length s <= k ->
  replace_loop k s [c] new =
  flat_map (fun x => if Ascii.eqb x c then new else [x]) s.
Proof.
  set (f := fun x => if Ascii.eqb x c then new else [x]).
  assert (Hid : forall t, ~ occurs [c] t -> flat_map f t = t).
  { intros t Ht. apply flat_map_unchanged, Forall_forall. intros x Hx.
    unfold f. destruct (Ascii.eqb_spec x c) as [->|]; [|done].
    exfalso. apply Ht. by apply occurs_singleton. }
  revert s; induction k as [|k IH]; intros s Hk.
  - destruct s; [done|simpl in Hk; lia].
  - cbn [replace_loop]. destruct (Index s [c]) as [j|] eqn:E.
    + pose proof (Index_Some_length _ _ _ E) as Hl.
      destruct (Index_Some _ _ _ E) as [Hs Hno].
      rewrite Hs at 3. rewrite !flat_map_app.
      rewrite Hid by (by apply Hno). f_equal.
      cbn [flat_map]. unfold f at 1. rewrite Ascii.eqb_refl, app_nil_r.
      f_equal. apply IH. rewrite length_drop. cbn [length] in *. lia.
    + symmetry. apply Hid. by apply Index_None.
Qed.

Lemma ReplaceAll_byte s (c : ascii) (new : gostring) :
  ReplaceAll s [c] new =
  flat_map (fun x => if Ascii.eqb x c then new else [x]) s.
Proof. by apply replace_loop_byte. Qed.

Lemma escape_flat_map v :
  ReplaceAll (ReplaceAll v [backslash] [backslash; backslash])
             [dquote] [backslash; dquote] =
  flat_map escape_byte v.
Proof.
  rewrite !ReplaceAll_byte.
  induction v as [|x v IH]; [done|].
  cbn [flat_map]. rewrite flat_map_app, IH. f_equal.
  unfold escape_byte.
  destruct (Ascii.eqb_spec x backslash) as [->|]; [done|].
  cbn [flat_map]. by rewrite app_nil_r.
Qed.

Lemma decode_escaped v rest done cur :
  fold_left array_step (flat_map escape_byte v ++ rest) (InQuotes done cur) =
  fold_left array_step rest (InQuotes done (cur ++ v)).
Proof.
  revert cur; induction v as [|x v IH]; intros cur.
  - by rewrite app_nil_r.
  - cbn [flat_map]. rewrite <- app_assoc.
    replace (cur ++ x :: v) with ((cur ++ [x]) ++ v)
      by (by rewrite <- app_assoc).
    rewrite <- IH. unfold escape_byte.
    destruct (Ascii.eqb_spec x backslash) as [->|Hb]; [done|].
    destruct (Ascii.eqb_spec x dquote) as [->|Hq]; [done|].
    cbn [app fold_left array_step].
    apply Ascii.eqb_neq in Hb, Hq. by rewrite Hb, Hq.
Qed.

Lemma decode_quoted v rest done :
  fold_left array_step (quote v ++ rest) (AtElem done) =
  fold_left array_step rest (AfterElem (done ++ [v])).
Proof.
  unfold quote. rewrite <- !app_assoc. cbn [app fold_left array_step].
  change (Ascii.eqb dquote dquote) with true. cbv iota.
  rewrite decode_escaped. reflexivity.
Qed.

Lemma decode_joined arr done :
  arr <> [] ->
  fold_left array_step (Join (map quote arr) (str ",") ++ str "}") (AtElem done)
  = AtEnd (done ++ arr).
Proof.
  revert done; induction arr as [|v [|v' arr] IH]; intros done Hne.
  - done.
  - cbn [map Join]. rewrite decode_quoted. reflexivity.
  - change (map quote (v :: v' :: arr))
      with (quote v :: quote v' :: map quote arr).
    rewrite Join_cons, <- !app_assoc, decode_quoted.
    cbn [str list_ascii_of_string app fold_left array_step].
    change (Ascii.eqb "," ",") with true. cbv iota.
    change (quote v' :: map quote arr) with (map quote (v' :: arr)).
    rewrite IH by done. by rewrite <- app_assoc.
Qed.

End EncoderFacts.

Lemma parse_formatted (arr : list gostring) :
  parsePostgresArray (formatPostgresArray arr) = Some arr.
Proof.
  unfold formatPostgresArray, parsePostgresArray.
  destruct (decide (length arr = 0)) as [H0|Hn]; [by destruct arr|].
  assert (Hmap : map (fun v =>
      [dquote] ++ ReplaceAll (ReplaceAll v [backslash] [backslash; backslash])
                    [dquote] [backslash; dquote] ++ [dquote]) arr
      = map quote arr).
  { apply map_ext. intros v. by rewrite escape_flat_map. }
  cbv zeta. rewrite Hmap.
  assert (Hne : arr <> []) by (by destruct arr).
  assert (Hrun :
    fold_left array_step
      (str "{" ++ Join (map quote arr) (str ",") ++ str "}") AtStart
    = AtEnd arr).
  { etransitivity; [|exact (decode_joined arr [] Hne)].
    destruct arr as [|v [|v' arr]]; [done|reflexivity|].
    change (map quote (v :: v' :: arr))
      with (quote v :: quote v' :: map quote arr).
    rewrite Join_cons. reflexivity. }
  by rewrite Hrun.
Qed.

(** C8.  The empty list is encoded as [{}], and reading the encoding of any
    list of strings as an array literal gives the list back, whatever bytes
    the strings have. *)
Theorem array_encoding_round_trip (arr : list gostring) :
  formatPostgresArray [] = str "{}" /\
  parsePostgresArray (formatPostgresArray arr) = Some arr.
Proof.
  split; [reflexivity|].
  unfold formatPostgresArray, parsePostgresArray.
  destruct (decide (length arr = 0)) as [H0|Hn].
  - by destruct arr.
  - assert (Hmap : map (fun v =>
        [dquote] ++ ReplaceAll (ReplaceAll v [backslash] [backslash; backslash])
                      [dquote] [backslash; dquote] ++ [dquote]) arr
        = map quote arr).
    { apply map_ext. intros v. by rewrite escape_flat_map. }
    cbv zeta. rewrite Hmap.
    assert (Hne : arr <> []) by (by destruct arr).
    assert (Hrun :
      fold_left array_step
        (str "{" ++ Join (map quote arr) (str ",") ++ str "}") AtStart
      = AtEnd arr).
    { etransitivity; [|exact (decode_joined arr [] Hne)].
      destruct arr as [|v [|v' arr]]; [done|reflexivity|].
      change (map quote (v :: v' :: arr))
        with (quote v :: quote v' :: map quote arr).
      rewrite Join_cons. reflexivity. }
    by rewrite Hrun.
Qed.


(* ===================================================================== *)
(** * The run *)
(* ===================================================================== *)

Ltac unfold_M :=
  unfold mbind, M_bind, bind, mret, M_ret, ret, panic, print,
         db_Exec, db_Query, db_BeginTx, tx_Exec, tx_Insert, tx_Rollback,
         tx_Commit, set_tx, set_committed, log_call in *;
  cbn [committed tx calls out fst snd] in *.

Ltac norm_app :=
  rewrite ?map_app, <- ?app_assoc; cbn [map app]; try done.

Section RunFacts.

Variable fails : list Call -> Call -> bool.

(** The loop over the statements either runs them all in the view of the
    transaction, or stops at the first that fails, rolled back. *)
Lemma exec_statements_run stmts w v :
  tx w = Some v ->
  (exec_statements fails stmts w =
     (Returned tt,
      mkWorld (committed w)
              (Some (mkStore (effects v ++ stmts) (ledger v)))
              (calls w ++ map ExecStmt stmts) (out w)))
  \/
  (exists before stmt after,
     stmts = before ++ stmt :: after /\
     exec_statements fails stmts w =
       (Panicked (ErrDriver (ExecStmt stmt)),
        mkWorld (committed w) None
                (calls w ++ map ExecStmt (before ++ [stmt]) ++ [Rollback])
                (out w ++ [OutStmtError]))).
Proof.
  revert w v; induction stmts as [|stmt stmts IH]; intros w v Htx.
  - left. cbn [exec_statements]. unfold_M. destruct w, v. simpl in *.
    by rewrite !app_nil_r, Htx.
  - cbn [exec_statements]. unfold_M. rewrite Htx.
    destruct (fails (calls w) (ExecStmt stmt)) eqn:Ef.
    + right. exists [], stmt, stmts. split; [done|]. simpl.
      norm_app.
    + destruct (IH (mkWorld (committed w)
                      (Some (mkStore (effects v ++ [stmt]) (ledger v)))
                      (calls w ++ [ExecStmt stmt]) (out w))
                   (mkStore (effects v ++ [stmt]) (ledger v)) eq_refl)
        as [H|(before & s' & after & -> & H)].
      * left. rewrite H. cbn [committed tx calls out effects ledger].
        norm_app.
      * right. exists (stmt :: before), s', after. split; [done|].
        rewrite H. cbn [committed tx calls out effects ledger].
        norm_app.
Qed.

(** One migration either goes through as a whole, or panics and leaves the
    committed store as it was. *)
Lemma apply_migration_run m w :
  (apply_migration fails m w =
     (Returned tt,
      mkWorld (applied_to (committed w) m) None
              (calls w ++ calls_of_success m)
              (out w ++ [OutApplying (Version m) (Name m);
                         OutSuccess (Version m)])))
  \/
  (exists e cs o w',
     apply_migration fails m w = (Panicked e, w') /\
     committed w' = committed w /\
     calls w' = calls w ++ cs /\
     aborted_calls m cs e /\
     out w' = out w ++ OutApplying (Version m) (Name m) :: o /\
     (o = [] \/ o = [OutStmtError])).
Proof.
  unfold apply_migration. unfold_M.
  destruct (fails (calls w) BeginTx) eqn:Eb.
  { right. eexists _, [BeginTx], [], _. split; [reflexivity|].
    cbn [committed tx calls out]. split_and!; try done; [constructor|by left]. }
  destruct (exec_statements_run (Statements m)
              (mkWorld (committed w) (Some (committed w))
                       (calls w ++ [BeginTx])
                       (out w ++ [OutApplying (Version m) (Name m)]))
              (committed w) eq_refl)
    as [H|(before & stmt & after & Hst & H)];
    rewrite H; cbn [committed tx calls out effects ledger].
  2:{ right.
      exists (ErrDriver (ExecStmt stmt)),
             ([BeginTx] ++ map ExecStmt (before ++ [stmt]) ++ [Rollback]),
             [OutStmtError].
      eexists. split; [reflexivity|].
      cbn [committed tx calls out]. split_and!.
      - done.
      - norm_app.
      - by apply (aborted_stmt m before stmt after).
      - norm_app.
      - by right. }
  destruct (fails _ (InsertLedger (ledger_row m))
            || bool_decide (row_version (ledger_row m)
                            ∈ map row_version (ledger (committed w)))) eqn:Ei.
  { right.
    exists (ErrDriver (InsertLedger (ledger_row m))),
           ([BeginTx] ++ map ExecStmt (Statements m)
              ++ [InsertLedger (ledger_row m); Rollback]),
           [].
    eexists. split; [reflexivity|].
    cbn [committed tx calls out]. split_and!.
    - done.
    - norm_app.
    - apply aborted_insert.
    - norm_app.
    - by left. }
  destruct (fails _ Commit) eqn:Ec.
  { right.
    exists (ErrDriver Commit), (calls_of_success m), [].
    eexists. split; [reflexivity|].
    cbn [committed tx calls out]. split_and!.
    - done.
    - unfold calls_of_success. norm_app.
    - apply aborted_commit.
    - norm_app.
    - by left. }
  left. unfold applied_to, calls_of_success.
  apply (f_equal (pair _)). cbn [committed tx calls out effects ledger].
  f_equal; norm_app.
Qed.

Lemma all_go_through_app history cs1 cs2 :
  all_go_through fails history (cs1 ++ cs2) =
  all_go_through fails history cs1 && all_go_through fails (history ++ cs1) cs2.
Proof.
  revert history; induction cs1 as [|c cs1 IH]; intros history;
    cbn [app all_go_through].
  - by rewrite app_nil_r.
  - rewrite IH, <- app_assoc. cbn [app]. by rewrite andb_assoc.
Qed.

Lemma all_go_through_at history pre c post :
  all_go_through fails history (pre ++ c :: post) = true ->
  fails (history ++ pre) c = false.
Proof.
  rewrite all_go_through_app. cbn [all_go_through].
  intros [_ [Hc _]%andb_true_iff]%andb_true_iff.
  by apply negb_true_iff in Hc.
Qed.

(** The loop over the statements, with what the driver did: every statement
    went through, or the first one that failed is where the loop stopped. *)
Lemma exec_statements_outcome stmts w v :
  tx w = Some v ->
  (all_go_through fails (calls w) (map ExecStmt stmts) = true /\
   exec_statements fails stmts w =
     (Returned tt,
      mkWorld (committed w)
              (Some (mkStore (effects v ++ stmts) (ledger v)))
              (calls w ++ map ExecStmt stmts) (out w)))
  \/
  (exists before stmt after,
     stmts = before ++ stmt :: after /\
     all_go_through fails (calls w) (map ExecStmt before) = true /\
     fails (calls w ++ map ExecStmt before) (ExecStmt stmt) = true /\
     exec_statements fails stmts w =
       (Panicked (ErrDriver (ExecStmt stmt)),
        mkWorld (committed w) None
                (calls w ++ map ExecStmt (before ++ [stmt]) ++ [Rollback])
                (out w ++ [OutStmtError]))).
Proof.
  revert w v; induction stmts as [|stmt stmts IH]; intros w v Htx.
  - left. split; [done|]. cbn [exec_statements]. unfold_M. destruct w, v.
    simpl in *. by rewrite !app_nil_r, Htx.
  - cbn [exec_statements]. unfold_M. rewrite Htx.
    destruct (fails (calls w) (ExecStmt stmt)) eqn:Ef.
    + right. exists [], stmt, stmts. cbn [map app all_go_through].
      rewrite app_nil_r. split_and!; try done. simpl. norm_app.
    + destruct (IH (mkWorld (committed w)
                      (Some (mkStore (effects v ++ [stmt]) (ledger v)))
                      (calls w ++ [ExecStmt stmt]) (out w))
                   (mkStore (effects v ++ [stmt]) (ledger v)) eq_refl)
        as [[Hall H]|(before & s' & after & -> & Hall & Hs' & H)];
        cbn [committed tx calls out effects ledger] in *.
      * left. split.
        -- cbn [map all_go_through]. by rewrite Ef, Hall.
        -- rewrite H. norm_app.
      * right. exists (stmt :: before), s', after. split_and!.
        -- done.
        -- cbn [map all_go_through]. by rewrite Ef, Hall.
        -- rewrite <- Hs'. f_equal. norm_app.
        -- rewrite H. norm_app.
Qed.

(** One migration, with what the driver did: it goes through as a whole, or
    it stops at its first failing call and leaves the committed store as it
    was. *)
Lemma apply_migration_outcome m w :
  (goes_through fails (calls w) (committed w) m /\
   apply_migration fails m w =
     (Returned tt,
      mkWorld (applied_to (committed w) m) None
              (calls w ++ calls_of_success m)
              (out w ++ [OutApplying (Version m) (Name m);
                         OutSuccess (Version m)])))
  \/
  (exists e cs w',
     apply_migration fails m w = (Panicked e, w') /\
     committed w' = committed w /\
     calls w' = calls w ++ cs /\
     failed_at fails (calls w) (committed w) m cs e).
Proof.
  unfold apply_migration. unfold_M.
  destruct (fails (calls w) BeginTx) eqn:Eb.
  { right. eexists _, [BeginTx], _. split; [reflexivity|].
    cbn [committed tx calls out]. split_and!; try done. by constructor. }
  destruct (exec_statements_outcome (Statements m)
              (mkWorld (committed w) (Some (committed w))
                       (calls w ++ [BeginTx])
                       (out w ++ [OutApplying (Version m) (Name m)]))
              (committed w) eq_refl)
    as [[Hall H]|(before & stmt & after & Hst & Hall & Hs & H)];
    rewrite H; cbn [committed tx calls out effects ledger] in *.
  2:{ right.
      exists (ErrDriver (ExecStmt stmt)),
             ([BeginTx] ++ map ExecStmt (before ++ [stmt]) ++ [Rollback]).
      eexists. split; [reflexivity|].
      cbn [committed tx calls out]. split_and!.
      - done.
      - norm_app.
      - apply (failed_stmt fails (calls w) (committed w) m before stmt after).
        + done.
        + cbn [app all_go_through]. by rewrite Eb, Hall.
        + by rewrite app_assoc.
    }
  assert (Hfront : all_go_through fails (calls w)
                     ([BeginTx] ++ map ExecStmt (Statements m)) = true).
  { cbn [app all_go_through]. by rewrite Eb, Hall. }
  destruct (fails _ (InsertLedger (ledger_row m))) eqn:Ei.
  { right.
    exists (ErrDriver (InsertLedger (ledger_row m))),
           ([BeginTx] ++ map ExecStmt (Statements m)
              ++ [InsertLedger (ledger_row m); Rollback]).
    eexists. split; [reflexivity|].
    cbn [committed tx calls out]. split_and!.
    - done.
    - norm_app.
    - apply failed_insert; [done|]. left. by rewrite app_assoc. }
  cbn [orb].
  destruct (decide (Version m ∈ map row_version (ledger (committed w))))
    as [Hin|Hnin].
  { rewrite bool_decide_eq_true_2 by done. right.
    exists (ErrDriver (InsertLedger (ledger_row m))),
           ([BeginTx] ++ map ExecStmt (Statements m)
              ++ [InsertLedger (ledger_row m); Rollback]).
    eexists. split; [reflexivity|].
    cbn [committed tx calls out]. split_and!.
    - done.
    - norm_app.
    - apply failed_insert; [done|]. by right. }
  rewrite bool_decide_eq_false_2 by done.
  assert (Hrow : all_go_through fails (calls w)
                   ([BeginTx] ++ map ExecStmt (Statements m)
                      ++ [InsertLedger (ledger_row m)]) = true).
  { rewrite app_assoc, all_go_through_app, Hfront. cbn [all_go_through andb].
    rewrite app_assoc, Ei. done. }
  destruct (fails _ Commit) eqn:Ec.
  { right.
    exists (ErrDriver Commit), (calls_of_success m).
    eexists. split; [reflexivity|].
    cbn [committed tx calls out]. split_and!.
    - done.
    - unfold calls_of_success. norm_app.
    - apply failed_commit; [done|done|].
      rewrite <- Ec. f_equal. norm_app. }
  left. split.
  - split; [|done]. unfold calls_of_success.
    change [InsertLedger (ledger_row m); Commit]
      with ([InsertLedger (ledger_row m)] ++ [Commit]).
    rewrite !app_assoc, all_go_through_app, <- !app_assoc, Hrow.
    cbn [all_go_through andb]. rewrite andb_true_r. apply negb_true_iff.
    rewrite <- Ec. f_equal. norm_app.
  - unfold applied_to, calls_of_success.
    apply (f_equal (pair _)). cbn [committed tx calls out effects ledger].
    f_equal; norm_app.
Qed.

(** A migration that fails somewhere does not go through: the two are
    exclusive, so the driver decides which of them happens. *)
Lemma failed_at_not_through history s m cs e :
  failed_at fails history s m cs e -> ~ goes_through fails history s m.
Proof.
  intros Hf [Hall Hfresh]. unfold calls_of_success in Hall.
  destruct Hf as [Hb|before stmt after Hst _ Hs|_ [Hi|Hin]|_ _ Hc].
  - pose proof (all_go_through_at history [] BeginTx _ Hall) as H.
    rewrite app_nil_r in H. congruence.
  - rewrite Hst, map_app in Hall. cbn [map] in Hall.
    rewrite <- app_assoc in Hall. cbn [app] in Hall.
    pose proof (all_go_through_at history ([BeginTx] ++ map ExecStmt before)
                  (ExecStmt stmt) _ Hall) as H.
    congruence.
  - pose proof (all_go_through_at history
                  ([BeginTx] ++ map ExecStmt (Statements m))
                  (InsertLedger (ledger_row m)) [Commit] Hall) as H.
    congruence.
  - done.
  - change [InsertLedger (ledger_row m); Commit]
      with ([InsertLedger (ledger_row m)] ++ [Commit]) in Hall.
    rewrite (app_assoc (map ExecStmt (Statements m))) in Hall.
    pose proof (all_go_through_at history
                  ([BeginTx] ++ map ExecStmt (Statements m)
                     ++ [InsertLedger (ledger_row m)])
                  Commit [] Hall) as H.
    congruence.
Qed.

Lemma announced_app o1 o2 : announced (o1 ++ o2) = announced o1 ++ announced o2.
Proof. apply flat_map_app. Qed.

Lemma ledger_fold_applied_to done s :
  ledger (fold_left applied_to done s) = ledger s ++ map ledger_row done.
Proof.
  revert s; induction done as [|m done IH]; intros s; simpl.
  - by rewrite app_nil_r.
  - rewrite IH. simpl. by rewrite <- app_assoc.
Qed.

(** The whole loop: the pending migrations are applied one after the
    other, up to the first that fails. *)
Lemma apply_loop_run applied ms w :
  let r := apply_loop fails applied ms w in
  exists done rest cs,
    reconcile applied ms = done ++ rest /\
    committed r.2 = fold_left applied_to done (committed w) /\
    calls r.2 = calls w ++ flat_map calls_of_success done ++ cs /\
    announced (out r.2) =
      announced (out w)
        ++ map (fun m => (Version m, Name m)) (done ++ take 1 rest) /\
    match r.1 with
    | Returned _ => rest = [] /\ cs = []
    | Panicked e => exists m rest', rest = m :: rest' /\ aborted_calls m cs e
    end.
Proof.
  revert w; induction ms as [|m ms IH]; intros w; cbn zeta.
  - exists [], [], []. cbn. by rewrite !app_nil_r.
  - cbn [apply_loop reconcile List.filter]. unfold mbind, M_bind, bind.
    destruct (applied !! Version m) as [h|] eqn:Ea.
    + rewrite bool_decide_eq_false_2 by done.
      set (w1 := mkWorld (committed w) (tx w) (calls w)
                   (out w ++ [OutAlready (Version m) (Name m)])).
      change (print (OutAlready (Version m) (Name m)) w)
        with (Returned tt, w1).
      cbv iota beta.
      destruct (IH w1) as (done & rest & cs & H1 & H2 & H3 & H4 & H5).
      exists done, rest, cs. split_and!; try done.
      rewrite H4. unfold w1. cbn [out]. rewrite announced_app. cbn.
      by rewrite app_nil_r.
    + rewrite bool_decide_eq_true_2 by done.
      destruct (apply_migration_run m w)
        as [H|(e & cs & o & w' & H & Hc & Hcalls & Hab & Hout & Ho)];
        rewrite H.
      * match goal with |- context [apply_loop fails applied ms ?w1] =>
          specialize (IH w1) end.
        cbn zeta in IH.
        destruct IH as (done & rest & cs & H1 & H2 & H3 & H4 & H5).
        exists (m :: done), rest, cs. fold (reconcile applied ms).
        split_and!; try done.
        -- by rewrite H1.
        -- rewrite H3. cbn [calls flat_map]. by rewrite <- !app_assoc.
        -- rewrite H4. cbn [out]. rewrite announced_app. cbn.
           by rewrite <- app_assoc.
      * exists [], (m :: reconcile applied ms), cs. cbn [fst snd].
        split_and!; try done.
        -- rewrite Hout, announced_app. cbn.
           destruct Ho as [-> | ->]; cbn; by rewrite ?app_nil_r.
        -- by exists m, (reconcile applied ms).
Qed.

(** The whole loop, with what the driver did: the pending migrations that
    go through are applied one after the other, and the first that does not
    ends the run. *)
Lemma apply_loop_outcome applied ms w :
  let r := apply_loop fails applied ms w in
  exists done rest cs,
    reconcile applied ms = done ++ rest /\
    committed r.2 = fold_left applied_to done (committed w) /\
    calls r.2 = calls w ++ flat_map calls_of_success done ++ cs /\
    all_applied fails (calls w) (committed w) done /\
    match r.1 with
    | Returned _ => rest = [] /\ cs = []
    | Panicked e =>
        exists m rest',
          rest = m :: rest' /\
          failed_at fails (calls w ++ flat_map calls_of_success done)
            (fold_left applied_to done (committed w)) m cs e
    end.
Proof.
  revert w; induction ms as [|m ms IH]; intros w; cbn zeta.
  - exists [], [], []. cbn. by rewrite !app_nil_r.
  - cbn [apply_loop reconcile List.filter]. unfold mbind, M_bind, bind.
    destruct (applied !! Version m) as [h|] eqn:Ea.
    + rewrite bool_decide_eq_false_2 by done.
      set (w1 := mkWorld (committed w) (tx w) (calls w)
                   (out w ++ [OutAlready (Version m) (Name m)])).
      change (print (OutAlready (Version m) (Name m)) w)
        with (Returned tt, w1).
      cbv iota beta. exact (IH w1).
    + rewrite bool_decide_eq_true_2 by done.
      destruct (apply_migration_outcome m w)
        as [[Hgo H]|(e & cs & w' & H & Hc & Hcalls & Hfail)];
        rewrite H.
      * match goal with |- context [apply_loop fails applied ms ?w1] =>
          specialize (IH w1) end.
        cbn zeta in IH. cbn [committed calls] in IH.
        destruct IH as (done & rest & cs & H1 & H2 & H3 & H4 & H5).
        exists (m :: done), rest, cs. fold (reconcile applied ms).
        split_and!; try done.
        -- by rewrite H1.
        -- rewrite H3. cbn [flat_map]. by rewrite <- !app_assoc.
        -- destruct (apply_loop fails applied ms _).1; [done|].
           destruct H5 as (m' & rest' & -> & Hf). exists m', rest'.
           split; [done|]. cbn [flat_map fold_left].
           by rewrite <- app_assoc in Hf.
      * exists [], (m :: reconcile applied ms), cs. cbn [fst snd].
        split_and!; try done. exists m, (reconcile applied ms).
        split; [done|]. cbn [flat_map fold_left]. by rewrite app_nil_r.
Qed.

(** A migration that went through had a version new to the ledger. *)
Lemma all_applied_fresh history s done :
  all_applied fails history s done ->
  Forall (fun m => Version m ∉ map row_version (ledger s)) done.
Proof.
  revert history s; induction done as [|m done IH]; intros history s;
    [constructor|].
  cbn [all_applied]. intros [[_ Hfresh] Hrest]. constructor; [done|].
  apply IH in Hrest. eapply Forall_impl; [exact Hrest|].
  intros m' Hm' Hin. apply Hm'. cbn [applied_to ledger].
  rewrite map_app. apply elem_of_app. by left.
Qed.


End RunFacts.

(** ** C1 *)

(** C1.  Applying a pending migration is atomic, and the loop is fail-fast;
    which of the two happens is decided by the driver.  One migration:
    the run of it returns exactly when none of the calls [BeginTx], its
    statements in order, the insert of its ledger row and [Commit] fails
    and the ledger has no row of its version; then these are the calls made,
    and the statements and the row are in the committed store together.
    Otherwise it panics at the first call that fails, after [Rollback] when
    that call is a statement or the insert, and the committed store is as
    it was.  The loop: the pending migrations that go through, [done], are
    applied one after the other; either they are all of them, or the next
    one fails as described, the run panics there, nothing of that migration
    is committed and no call is made for a later one. *)
Theorem apply_loop_atomic_fail_fast
    (fails : list Call -> Call -> bool)
    (applied : gmap gostring gostring) (ms : list Migration) (m : Migration)
    (w : World) :
  (let r := apply_migration fails m w in
   (r.1 = Returned tt <-> goes_through fails (calls w) (committed w) m) /\
   match r.1 with
   | Returned _ =>
       committed r.2 = applied_to (committed w) m /\
       calls r.2 = calls w ++ calls_of_success m
   | Panicked e =>
       committed r.2 = committed w /\
       exists cs,
         calls r.2 = calls w ++ cs /\
         failed_at fails (calls w) (committed w) m cs e
   end) /\
  (let r := apply_loop fails applied ms w in
   exists done rest cs,
     reconcile applied ms = done ++ rest /\
     committed r.2 = fold_left applied_to done (committed w) /\
     calls r.2 = calls w ++ flat_map calls_of_success done ++ cs /\
     all_applied fails (calls w) (committed w) done /\
     match r.1 with
     | Returned _ => rest = [] /\ cs = []
     | Panicked e =>
         exists m' rest',
           rest = m' :: rest' /\
           failed_at fails (calls w ++ flat_map calls_of_success done)
             (fold_left applied_to done (committed w)) m' cs e
     end).
Proof.
  split; [|apply apply_loop_outcome].
  cbv zeta.
  destruct (apply_migration_outcome fails m w)
    as [[Hgo H]|(e & cs & w' & H & Hc & Hcalls & Hfail)]; rewrite H;
    cbn [fst snd committed calls].
  - by split_and!.
  - split; [|split; [done|by exists cs]].
    split; [done|]. intros Hgo.
    by destruct (failed_at_not_through fails _ _ _ _ _ Hfail).
Qed.

(** ** C2 *)



(** ** C10 *)

Section SecondRun.

Variable fails : list Call -> Call -> bool.

Lemma read_applied_fold (rows : list (gostring * gostring))
    (acc : gmap gostring gostring) (v : gostring) :
  is_Some (fold_left (fun applied r => <[r.1 := r.2]> applied) rows acc !! v)
  <-> v ∈ map fst rows \/ is_Some (acc !! v).
Proof.
  revert acc; induction rows as [|r rows IH]; intros acc; simpl.
  - rewrite elem_of_nil. tauto.
  - rewrite IH, lookup_insert_is_Some, elem_of_cons.
    destruct (decide (r.1 = v)) as [->|Hne]; [tauto|].
    split.
    + intros [?|[?|[_ ?]]]; [by left; right|done|by right].
    + intros [[?|?]|?]; [congruence|by left|by right; right].
Qed.

Lemma read_applied_lookup (rows : list (gostring * gostring)) (v : gostring) :
  is_Some (read_applied rows !! v) <-> v ∈ map fst rows.
Proof.
  unfold read_applied. rewrite read_applied_fold, lookup_empty.
  split; [intros [?|[? ?]]; done|by left].
Qed.


(** The loop over [rows] reads a first part of the rows, all of them when
    no fetch fails. *)
Lemma rows_loop_prefix history i rows :
  rows_loop fails history i rows `prefix_of` rows.
Proof.
  revert i; induction rows as [|r rows IH]; intros i; cbn [rows_loop]; [done|].
  destruct (fails history (RowsNext i)); [apply prefix_nil|].
  by apply prefix_cons.
Qed.

Lemma rows_loop_whole history i rows :
  (forall j, fails history (RowsNext j) = false) ->
  rows_loop fails history i rows = rows.
Proof.
  intros Hno. revert i; induction rows as [|r rows IH]; intros i;
    cbn [rows_loop]; [done|].
  by rewrite Hno, IH.
Qed.

Lemma reads_whole_ledger_without_failed_fetch w :
  (forall history j, fails history (RowsNext j) = false) ->
  reads_whole_ledger fails w.
Proof. intros Hno. by apply rows_loop_whole. Qed.

Lemma rows_seen_in_ledger w v :
  v ∈ map fst (rows_seen fails w) ->
  v ∈ map row_version (ledger (committed w)).
Proof.
  unfold rows_seen. intros Hin.
  destruct (rows_loop_prefix
              (calls w ++ [CreateSchema; CreateTable; QueryLedger]) 0
              (ledger_pairs (committed w))) as [k Hk].
  assert (H : v ∈ map fst (ledger_pairs (committed w))).
  { rewrite Hk, map_app. apply elem_of_app. by left. }
  unfold ledger_pairs in H. by rewrite map_map in H.
Qed.

Variable sortSlice :
  list Migration -> (Migration -> Migration -> bool) -> list Migration.

(** The ways [main] can go: a call of the preparation fails, or the
    directory does not load, or the loop runs on the rows of the ledger as
    far as they were read. *)
Lemma main_run dir w :
  let setup := [CreateSchema; CreateTable; QueryLedger] in
  let r := main fails sortSlice dir w in
  r = (Panicked ErrCreateSchema, stopped w [CreateSchema] [OutLoading]) \/
  r = (Panicked ErrCreateTable,
       stopped w [CreateSchema; CreateTable] [OutLoading]) \/
  r = (Panicked (ErrDriver QueryLedger), stopped w setup [OutLoading]) \/
  (exists e,
     loadLocalMigrations sortSlice dir = Err e /\
     r = (Panicked e, stopped w setup [OutLoading])) \/
  (exists ms,
     loadLocalMigrations sortSlice dir = Ok ms /\
     let rl := apply_loop fails (read_applied (rows_seen fails w)) ms
                 (stopped w setup [OutLoading; OutFound (length ms)]) in
     r = match rl.1 with
         | Returned _ =>
             (Returned tt,
              mkWorld (committed rl.2) (tx rl.2) (calls rl.2)
                      (out rl.2 ++ [OutAllApplied]))
         | Panicked e => (Panicked e, rl.2)
         end).
Proof.
  cbv zeta. unfold main, stopped, rows_seen. unfold_M.
  destruct (fails _ CreateSchema); cbv beta iota;
    cbn [committed tx calls out fst snd]; [by left|].
  destruct (fails _ CreateTable); cbv beta iota;
    cbn [committed tx calls out fst snd].
  { right. left. by rewrite <- app_assoc. }
  destruct (fails _ QueryLedger); cbv beta iota;
    cbn [committed tx calls out fst snd].
  { do 2 right. left. by rewrite <- !app_assoc. }
  do 3 right.
  destruct (loadLocalMigrations sortSlice dir) as [ms|e].
  - right. exists ms. split; [done|]. unfold ledger_pairs.
    cbn [committed tx calls out]. rewrite <- !app_assoc. cbn [app].
    by destruct (apply_loop _ _ _ _) as [[[]|e] wl].
  - left. exists e. split; [done|]. by rewrite <- !app_assoc.
Qed.


End SecondRun.




(* ===================================================================== *)
(** * Scenarios *)
(* ===================================================================== *)

(** An empty directory and an empty ledger: nothing is applied, the run
    returns. *)
Example scenario_empty :
  let r := main never_fails insertionSort (Some []) fresh_world in
  r.1 = Returned tt /\
  committed r.2 = committed fresh_world /\
  calls r.2 = [CreateSchema; CreateTable; QueryLedger] /\
  out r.2 = [OutLoading; OutFound 0; OutAllApplied].
Proof. vm_compute. by split_and!. Qed.

(** One file of two statements on an empty ledger: both run, one row is
    written, with the hash of the file as read. *)
Example scenario_first_run :
  let r := main never_fails insertionSort (Some [users_file]) fresh_world in
  r.1 = Returned tt /\
  effects (committed r.2) =
    [str "CREATE TABLE users (id SERIAL);"; str "CREATE INDEX idx ON users(id);"] /\
  map row_version (ledger (committed r.2)) = [str "20240101120000"] /\
  map row_name (ledger (committed r.2)) = [str "create_users_table.sql"] /\
  map (fun row => Some (row_hash row)) (ledger (committed r.2)) =
    [computeHash <$> entry_data users_file] /\
  map (fun row => parsePostgresArray (row_statements row)) (ledger (committed r.2)) =
    [Some [str "CREATE TABLE users (id SERIAL);";
           str "CREATE INDEX idx ON users(id);"]].
Proof. vm_compute. by split_and!. Qed.

(** The same file again: nothing runs, it is reported as applied. *)
Example scenario_second_run :
  let r1 := main never_fails insertionSort (Some [users_file]) fresh_world in
  let r2 := main never_fails insertionSort (Some [users_file]) r1.2 in
  r2.1 = Returned tt /\
  committed r2.2 = committed r1.2 /\
  drop (length (calls r1.2)) (calls r2.2) = [CreateSchema; CreateTable; QueryLedger] /\
  drop (length (out r1.2)) (out r2.2) =
    [OutLoading; OutFound 1;
     OutAlready (str "20240101120000") (str "create_users_table.sql");
     OutAllApplied].
Proof. vm_compute. by split_and!. Qed.

(** The same file again on a connection that breaks while the first row of
    the ledger is fetched: the loop over the rows ends with no row read, the
    file counts as pending, its statements are sent again, the primary key
    refuses the row, and the run panics after the rollback with nothing more
    committed. *)
Example scenario_second_run_rows_cut_short :
  let r1 := main never_fails insertionSort (Some [users_file]) fresh_world in
  let r2 := main fetch_breaks insertionSort (Some [users_file]) r1.2 in
  rows_seen fetch_breaks r1.2 = [] /\
  committed r2.2 = committed r1.2 /\
  tx r2.2 = None /\
  drop (length (out r1.2)) (out r2.2) =
    [OutLoading; OutFound 1;
     OutApplying (str "20240101120000") (str "create_users_table.sql")] /\
  exists row,
    ledger (committed r1.2) = [row] /\
    r2.1 = Panicked (ErrDriver (InsertLedger row)) /\
    drop (length (calls r1.2)) (calls r2.2) =
      [CreateSchema; CreateTable; QueryLedger; BeginTx;
       ExecStmt (str "CREATE TABLE users (id SERIAL);");
       ExecStmt (str "CREATE INDEX idx ON users(id);");
       InsertLedger row; Rollback].
Proof. vm_compute. split_and!; try done. eexists. by split_and!. Qed.

(** A migration whose second statement fails: the run panics, its first
    statement and its row are not committed, and the migration behind it is
    not begun. *)
Example scenario_failing_statement :
  let r := main (fails_on (str "CREATE TABEL u;")) insertionSort
             (Some [users_file; broken_file; later_file]) fresh_world in
  r.1 = Panicked (ErrDriver (ExecStmt (str "CREATE TABEL u;"))) /\
  effects (committed r.2) =
    [str "CREATE TABLE users (id SERIAL);"; str "CREATE INDEX idx ON users(id);"] /\
  map row_version (ledger (committed r.2)) = [str "20240101120000"] /\
  tx r.2 = None /\
  drop 8 (calls r.2) =
    [BeginTx; ExecStmt (str "CREATE TABLE t (id INT);");
     ExecStmt (str "CREATE TABEL u;"); Rollback].
Proof. vm_compute. by split_and!. Qed.

(* ===================================================================== *)
(** * Further properties of the loader *)
(* ===================================================================== *)

Section LoaderMore.

Lemma load_entry_skipped f : is_migration_file f = false -> load_entry f = Ok None.
Proof.
  unfold is_migration_file, load_entry.
  by destruct (entry_is_dir f || negb (HasSuffix (entry_name f) (str ".sql"))).
Qed.

Lemma load_entry_read f r :
  load_entry f = Ok (Some r) -> is_migration_file f = true.
Proof.
  unfold is_migration_file, load_entry.
  by destruct (entry_is_dir f || negb (HasSuffix (entry_name f) (str ".sql"))).
Qed.

(** The slice built by the loop: one migration for each file read, in the
    order of the directory. *)
Lemma load_loop_Ok files acc res :
  load_loop files acc = Ok res <->
  exists parsed,
    res = acc ++ parsed /\
    Forall2 (fun f m => load_entry f = Ok (Some m))
            (List.filter is_migration_file files) parsed.
Proof.
  revert acc res; induction files as [|f files IH]; intros acc res.
  - cbn. split.
    + intros [= <-]. exists []. by rewrite app_nil_r.
    + intros (parsed & -> & H). inversion H. by rewrite app_nil_r.
  - cbn [List.filter load_loop].
    destruct (is_migration_file f) eqn:E.
    + destruct (load_entry f) as [[m|]|e] eqn:El.
      * rewrite IH. split.
        -- intros (parsed & -> & H). exists (m :: parsed).
           split; [by rewrite <- app_assoc|by constructor].
        -- intros (parsed & -> & H). inversion H as [|?? m' parsed' Hm Hrest];
             subst. rewrite El in Hm. injection Hm as <-.
           exists parsed'. split; [by rewrite <- app_assoc|done].
      * exfalso. unfold is_migration_file in E. unfold load_entry in El.
        destruct (entry_is_dir f || negb (HasSuffix (entry_name f) (str ".sql")));
          [done|].
        destruct (entry_data f); [|done].
        by destruct (SplitN (entry_name f) (str "_") 2) as [|? [|? [|??]]].
      * split; [done|]. intros (parsed & _ & H).
        inversion H as [|?? m' parsed' Hm Hrest]; subst. congruence.
    + rewrite (load_entry_skipped f E). apply IH.
Qed.

Lemma load_entry_loads f :
  is_migration_file f = true ->
  (exists m, load_entry f = Ok (Some m)) <->
  is_Some (entry_data f) /\ "_"%char ∈ entry_name f.
Proof.
  intros E. unfold is_migration_file in E. unfold load_entry.
  destruct (entry_is_dir f || negb (HasSuffix (entry_name f) (str ".sql")));
    [done|].
  destruct (SplitN_underscore (entry_name f)) as [Hin Hnin].
  destruct (entry_data f) as [raw|].
  2:{ split; [by intros [? ?]|by intros [[? ?] _]]. }
  destruct (decide ("_"%char ∈ entry_name f)) as [H|H].
  - destruct (Hin H) as (k & _ & ->). split; [done|]. intros _. by eexists.
  - rewrite (Hnin H). split; [by intros [? ?]|by intros [_ ?]].
Qed.

(** A name the loader accepts is cut at its first underscore. *)
Lemma load_entry_name f m :
  load_entry f = Ok (Some m) ->
  entry_name f = Version m ++ str "_" ++ Name m /\ "_"%char ∉ Version m.
Proof.
  intros (_ & _ & _ & Hsplit & _)%load_entry_Some.
  destruct (SplitN_underscore (entry_name f)) as [Hin Hnin].
  destruct (decide ("_"%char ∈ entry_name f)) as [H|H].
  - destruct (Hin H) as (k & Hk & Hs). rewrite Hs in Hsplit.
    injection Hsplit as <- <-.
    destruct (Index_Some _ _ _ Hk) as [Hname Hno]. split.
    + exact Hname.
    + intros Hv. apply Hno; [done|]. by apply occurs_singleton.
  - by rewrite (Hnin H) in Hsplit.
Qed.

Lemma occurs_trans (a b c : gostring) : occurs a b -> occurs b c -> occurs a c.
Proof. intros Hab (l & r & ->). by apply occurs_infix. Qed.

Lemma occurs_Join (c sep : gostring) (l : list gostring) :
  c ∈ l -> occurs c (Join l sep).
Proof.
  induction l as [|e [|e' l] IH].
  - by intros ?%elem_of_nil.
  - intros [->|?%elem_of_nil]%elem_of_cons; [|done].
    exists [], []. cbn. by rewrite app_nil_r.
  - rewrite Join_cons. intros [->|Hin]%elem_of_cons.
    + by exists [], (sep ++ Join (e' :: l) sep).
    + destruct (IH Hin) as (u & v & Hj). rewrite Hj.
      exists (e ++ sep ++ u), v. by rewrite <- !app_assoc.
Qed.

Lemma collect_statements_from chunks :
  Forall (fun s => exists c, c ∈ chunks /\ occurs s c) (collect_statements chunks).
Proof.
  induction chunks as [|c chunks IH]; cbn [collect_statements]; [constructor|].
  assert (Hrest : Forall (fun s => exists c', c' ∈ c :: chunks /\ occurs s c')
                         (collect_statements chunks)).
  { eapply Forall_impl; [exact IH|]. intros s (c' & Hc' & Ho).
    exists c'. split; [by right|done]. }
  destruct (TrimSpace c) eqn:E; [done|]. constructor; [|done].
  exists c. split; [by left|]. rewrite <- E.
  destruct (TrimSpace_split c) as (u & v & Hc & _). by exists u, v.
Qed.

(** Two sorted arrangements of the same elements are the same list when the
    order tells any two of the elements apart. *)
Lemma sorted_arrangement_unique {A} (R : A -> A -> Prop) (l1 l2 : list A) :
  (forall a b, a ∈ l1 -> b ∈ l1 -> R a b -> R b a -> a = b) ->
  StronglySorted R l1 -> StronglySorted R l2 -> Permutation l1 l2 -> l1 = l2.
Proof.
  intros Hanti Hs1; revert l2; induction Hs1 as [|a l1 Hs1 IH Ha];
    intros l2 Hs2 Hp.
  - by apply Permutation_nil in Hp.
  - destruct l2 as [|b l2]; [by apply Permutation_sym, Permutation_nil in Hp|].
    inversion Hs2 as [|?? Hs2' Hb]; subst.
    assert (a = b) as <-.
    { assert (Hain : a ∈ b :: l2).
      { apply list_elem_of_In. eapply Permutation_in; [exact Hp|by left]. }
      assert (Hbin : b ∈ a :: l1).
      { apply list_elem_of_In. eapply Permutation_in;
          [symmetry; exact Hp|by left]. }
      apply elem_of_cons in Hain as [?|Hain]; [done|].
      apply elem_of_cons in Hbin as [?|Hbin]; [done|].
      rewrite Forall_forall in Ha, Hb.
      apply Hanti; [by left|by right|by apply Ha|by apply Hb]. }
    f_equal. apply IH; [|done|by apply Permutation_cons_inv in Hp].
    intros x y Hx Hy. apply Hanti; by right.
Qed.

Lemma NoDup_map_eq {A B} (g : A -> B) (l : list A) (a b : A) :
  NoDup (map g l) -> a ∈ l -> b ∈ l -> g a = g b -> a = b.
Proof.
  induction l as [|x l IH]; intros Hnd Ha Hb E; [by apply elem_of_nil in Ha|].
  cbn in Hnd. apply NoDup_cons in Hnd as [Hx Hnd].
  apply elem_of_cons in Ha as [->|Ha]; apply elem_of_cons in Hb as [->|Hb].
  - done.
  - exfalso. apply Hx. rewrite E. apply list_elem_of_In, in_map.
    by apply list_elem_of_In.
  - exfalso. apply Hx. rewrite <- E. apply list_elem_of_In, in_map.
    by apply list_elem_of_In.
  - by apply IH.
Qed.

Lemma loaded_statement_trimmed (f : DirEntry) (m : Migration) (s : gostring) :
  load_entry f = Ok (Some m) -> s ∈ Statements m ->
  s <> [] /\ TrimSpace s = s.
Proof.
  intros (_ & _ & _ & _ & -> & _)%load_entry_Some Hs.
  destruct (Split_pieces breakpoint (Raw m) breakpoint_nonempty) as (Hno & _).
  pose proof (collect_statements_trimmed _ Hno) as H1.
  rewrite Forall_forall in H1. by destruct (H1 s Hs) as (_ & ? & ?).
Qed.

End LoaderMore.

(** X1.  Directories and files whose name does not end in [.sql] are never
    read and change nothing: the loader gives the same result, migrations or
    error, on the directory and on its [.sql] files alone. *)
Theorem loader_ignores_other_entries
    (sortSlice : list Migration -> (Migration -> Migration -> bool) -> list Migration)
    (files : list DirEntry) :
  loadLocalMigrations sortSlice (Some files) =
  loadLocalMigrations sortSlice (Some (List.filter is_migration_file files)).
Proof.
  assert (H : forall acc,
            load_loop files acc =
            load_loop (List.filter is_migration_file files) acc).
  { induction files as [|f files IH]; intros acc; [done|].
    cbn [List.filter load_loop].
    destruct (is_migration_file f) eqn:E.
    - cbn [load_loop]. destruct (load_entry f) as [[m|]|e]; by rewrite ?IH.
    - by rewrite (load_entry_skipped f E). }
  unfold loadLocalMigrations. by rewrite H.
Qed.

(** X2.  The loader succeeds exactly when every [.sql] file of the directory
    can be read and has an underscore in its name; then it returns one
    migration for each of these files. *)
Theorem loader_succeeds_iff
    (sortSlice : list Migration -> (Migration -> Migration -> bool) -> list Migration)
    (files : list DirEntry) :
  SortSliceContract sortSlice ->
  ((exists ms, loadLocalMigrations sortSlice (Some files) = Ok ms) <->
   Forall (fun f => is_Some (entry_data f) /\ "_"%char ∈ entry_name f)
          (List.filter is_migration_file files)) /\
  (forall ms, loadLocalMigrations sortSlice (Some files) = Ok ms ->
     length ms = length (List.filter is_migration_file files)).
Proof.
  intros Hsort. unfold loadLocalMigrations.
  assert (Hcand : Forall (fun f => is_migration_file f = true)
                         (List.filter is_migration_file files)).
  { apply Forall_forall. intros f Hf.
    apply list_elem_of_In, filter_In in Hf. by destruct Hf. }
  split.
  - split.
    + intros [ms Hms].
      destruct (load_loop files []) as [parsed|] eqn:E; [|done].
      apply load_loop_Ok in E as (parsed' & _ & H2). clear Hms.
      induction H2 as [|f m fs ps Hfm _ IH]; [constructor|].
      inversion Hcand; subst. constructor; [|by apply IH].
      apply load_entry_loads; [done|by exists m].
    + intros Hall.
      assert (Hex : exists parsed, load_loop files [] = Ok parsed).
      { enough (exists parsed,
                  Forall2 (fun f m => load_entry f = Ok (Some m))
                          (List.filter is_migration_file files) parsed)
          as [parsed Hp].
        { exists parsed. apply load_loop_Ok. by exists parsed. }
        induction Hall as [|f fs Hf _ IH]; [by exists []|].
        inversion Hcand; subst.
        apply load_entry_loads in Hf as [m Hm]; [|done].
        destruct IH as [parsed Hp]; [done|].
        exists (m :: parsed). by constructor. }
      destruct Hex as [parsed ->]. by eexists.
  - intros ms. destruct (load_loop files []) as [parsed|] eqn:E; [|done].
    intros [= <-]. apply load_loop_Ok in E as (parsed' & -> & H2).
    destruct (Hsort parsed' version_less) as [Hperm _].
    cbn. rewrite (Permutation_length Hperm).
    symmetry. by eapply Forall2_length.
Qed.

Lemma loader_succeeds_iff_witness :
  exists ms,
    loadLocalMigrations insertionSort (Some mixed_dir) = Ok ms /\
    length ms = 1.
Proof.
  eexists. split; [reflexivity|].
  exact (proj2 (loader_succeeds_iff insertionSort mixed_dir
                  insertionSort_contract) _ eq_refl).
Defined.

(** X3.  The file name of a loaded migration is its version, an underscore
    and its name; the version has no underscore and the name ends in
    [.sql]: nothing of the file name is lost. *)
Theorem filename_is_version_underscore_name (f : DirEntry) (m : Migration) :
  load_entry f = Ok (Some m) ->
  entry_name f = Version m ++ str "_" ++ Name m /\
  ("_"%char ∉ Version m) /\
  exists stem, Name m = stem ++ str ".sql".
Proof.
  intros Hload. destruct (load_entry_name f m Hload) as [Hname Hv].
  split_and!; [done|done|].
  destruct (load_entry_Some f m Hload) as (_ & Hsuf & _).
  unfold HasSuffix in Hsuf. apply andb_true_iff in Hsuf as [Hlen Hdrop].
  apply Nat.leb_le in Hlen. apply bool_decide_eq_true in Hdrop.
  pose proof (take_drop (length (entry_name f) - length (str ".sql"))
                        (entry_name f)) as Hsplit.
  rewrite Hdrop, Hname in Hsplit.
  set (pre := take _ _) in Hsplit. clearbody pre.
  apply app_eq_inv in Hsplit as [(k & _ & Hk)|(k & _ & Hk)].
  - destruct k as [|c k].
    + cbn in Hk. discriminate Hk.
    + cbn in Hk. injection Hk as _ Hk. by exists k.
  - exfalso. apply (f_equal (fun l => bool_decide ("_"%char ∈ l))) in Hk.
    rewrite (bool_decide_eq_true_2 (_ ∈ k ++ _)) in Hk
      by (apply elem_of_app; right; by left).
    vm_compute in Hk. discriminate Hk.
Qed.

Lemma filename_is_version_underscore_name_witness :
  exists m,
    load_entry users_file = Ok (Some m) /\
    entry_name users_file = Version m ++ str "_" ++ Name m.
Proof.
  eexists. split; [reflexivity|].
  exact (proj1 (filename_is_version_underscore_name users_file _ eq_refl)).
Defined.

(** X4.  Every statement of a loaded migration is a piece of the file's
    content, is not empty, has no white space at either end and does not
    contain the marker. *)
Theorem statements_are_trimmed_pieces (f : DirEntry) (m : Migration) :
  load_entry f = Ok (Some m) ->
  Forall (fun s => occurs s (Raw m) /\ s <> [] /\ TrimSpace s = s /\
                   ~ occurs breakpoint s)
         (Statements m).
Proof.
  intros (_ & _ & _ & _ & -> & _)%load_entry_Some.
  destruct (Split_pieces breakpoint (Raw m) breakpoint_nonempty)
    as (Hno & Hjoin & _).
  pose proof (collect_statements_trimmed _ Hno) as H1.
  pose proof (collect_statements_from (Split (Raw m) breakpoint)) as H2.
  rewrite Forall_forall in H1, H2. apply Forall_forall. intros s Hs.
  destruct (H1 s Hs) as (? & ? & ?). destruct (H2 s Hs) as (c & Hc & Hsc).
  split_and!; try done.
  apply (occurs_trans s c); [done|].
  pose proof (occurs_Join c breakpoint _ Hc) as Hj. by rewrite Hjoin in Hj.
Qed.

Lemma statements_are_trimmed_pieces_witness :
  exists m,
    load_entry users_file = Ok (Some m) /\
    length (Statements m) = 2 /\
    Forall (fun s => s <> [] /\ TrimSpace s = s) (Statements m).
Proof.
  eexists. split; [reflexivity|]. split; [vm_compute; reflexivity|].
  eapply Forall_impl;
    [exact (statements_are_trimmed_pieces users_file _ eq_refl)|].
  intros s (_ & H1 & H2 & _). by split.
Defined.

(** X5.  When the versions of the directory are pairwise different, the
    result of the loader does not depend on how [sort.Slice] treats equal
    elements: any two sorts that do what Go documents give the same list. *)
Theorem loader_result_fixed_by_distinct_versions
    (sort1 sort2 : list Migration -> (Migration -> Migration -> bool) -> list Migration)
    (dir : option (list DirEntry)) (ms1 ms2 : list Migration) :
  SortSliceContract sort1 -> SortSliceContract sort2 ->
  loadLocalMigrations sort1 dir = Ok ms1 ->
  loadLocalMigrations sort2 dir = Ok ms2 ->
  NoDup (map Version ms1) ->
  ms1 = ms2.
Proof.
  intros H1 H2. unfold loadLocalMigrations.
  destruct dir as [files|]; [|done].
  destruct (load_loop files []) as [parsed|]; [|done].
  intros [= <-] [= <-] Hnd.
  destruct (H1 parsed version_less) as [Hp1 Hs1].
  destruct (H2 parsed version_less) as [Hp2 Hs2].
  apply (sorted_arrangement_unique (fun a b => version_less b a = false)).
  - intros a b Ha Hb Hab Hba. unfold version_less in *.
    destruct (string_lt_trichotomy (Version a) (Version b)) as [?|[E|?]];
      [congruence| |congruence].
    by apply (NoDup_map_eq Version (sort1 parsed version_less)).
  - apply Hs1, version_less_swo.
  - apply Hs2, version_less_swo.
  - by rewrite Hp1, Hp2.
Qed.

Lemma loader_result_fixed_by_distinct_versions_witness :
  exists ms1 ms2,
    loadLocalMigrations insertionSort two_versions = Ok ms1 /\
    loadLocalMigrations reversingSort two_versions = Ok ms2 /\
    ms1 = ms2.
Proof.
  eexists. eexists. split; [reflexivity|]. split; [reflexivity|].
  apply (loader_result_fixed_by_distinct_versions
           insertionSort reversingSort two_versions _ _
           insertionSort_contract reversingSort_contract eq_refl eq_refl).
  vm_compute. repeat constructor.
  - intros H. apply elem_of_cons in H as [H|H]; [discriminate H|].
    by apply elem_of_nil in H.
  - intros H. by apply elem_of_nil in H.
Defined.

(* ===================================================================== *)
(** * Further properties of the run *)
(* ===================================================================== *)

Section MainFacts.

Variable fails : list Call -> Call -> bool.
Variable sortSlice :
  list Migration -> (Migration -> Migration -> bool) -> list Migration.

Lemma effects_fold_applied_to done s :
  effects (fold_left applied_to done s) = effects s ++ flat_map Statements done.
Proof.
  revert s; induction done as [|m done IH]; intros s; cbn [fold_left flat_map].
  - by rewrite app_nil_r.
  - rewrite IH. cbn. by rewrite <- app_assoc.
Qed.

Lemma reconcile_elem applied ms m :
  m ∈ reconcile applied ms <-> m ∈ ms /\ applied !! Version m = None.
Proof.
  unfold reconcile. rewrite !list_elem_of_In, filter_In.
  by rewrite bool_decide_eq_true.
Qed.

(** When every local version is in [applied], the loop only reports. *)
Lemma apply_loop_all_applied applied ms w :
  Forall (fun m => is_Some (applied !! Version m)) ms ->
  apply_loop fails applied ms w =
  (Returned tt,
   mkWorld (committed w) (tx w) (calls w)
           (out w ++ map (fun m => OutAlready (Version m) (Name m)) ms)).
Proof.
  intros Hall; revert w; induction Hall as [|m ms [h Hm] _ IH]; intros w.
  - cbn. destruct w. cbn. by rewrite app_nil_r.
  - cbn [apply_loop]. unfold mbind, M_bind, bind. rewrite Hm.
    change (print (OutAlready (Version m) (Name m)) w)
      with (Returned tt,
            mkWorld (committed w) (tx w) (calls w)
                    (out w ++ [OutAlready (Version m) (Name m)])).
    cbv iota beta. rewrite IH. cbn [committed tx calls out map].
    by rewrite <- app_assoc.
Qed.

End MainFacts.

Section AppliedMap.

Lemma read_applied_fold_last (rows : list (gostring * gostring))
    (acc : gmap gostring gostring) (v : gostring) :
  fold_left (fun applied r => <[r.1 := r.2]> applied) rows acc !! v =
  match last (List.filter (fun r => bool_decide (r.1 = v)) rows) with
  | Some r => Some r.2
  | None => acc !! v
  end.
Proof.
  revert acc; induction rows as [|r rows IH]; intros acc; [done|].
  cbn [fold_left List.filter]. rewrite IH.
  destruct (decide (r.1 = v)) as [E|E].
  - rewrite bool_decide_eq_true_2 by done.
    destruct (List.filter _ rows) as [|r' rest] eqn:Ef.
    + cbn. rewrite <- E. by rewrite lookup_insert_eq.
    + change (last (r :: r' :: rest)) with (last (r' :: rest)).
      destruct (last (r' :: rest)) eqn:El; [done|].
      by apply last_None in El.
  - rewrite bool_decide_eq_false_2 by done.
    destruct (last _); [done|]. by rewrite lookup_insert_ne.
Qed.

End AppliedMap.

Section OrderFacts.

Context {A : Type} (R : A -> A -> Prop).

Lemma StronglySorted_filter_keeps (p : A -> bool) (l : list A) :
  StronglySorted R l -> StronglySorted R (List.filter p l).
Proof.
  induction 1 as [|a l Hl IH Ha]; cbn [List.filter]; [constructor|].
  destruct (p a); [|done]. constructor; [done|].
  apply Forall_forall. intros b Hb. rewrite Forall_forall in Ha.
  apply Ha. apply list_elem_of_In. apply list_elem_of_In, filter_In in Hb.
  by destruct Hb.
Qed.

Lemma StronglySorted_front (l1 l2 : list A) :
  StronglySorted R (l1 ++ l2) -> StronglySorted R l1.
Proof.
  induction l1 as [|a l1 IH]; cbn; [constructor|].
  inversion 1 as [|?? Hs Ha]; subst. constructor; [by apply IH|].
  by apply Forall_app in Ha as [? _].
Qed.

Lemma StronglySorted_map_of {B} (g : A -> B) (S : B -> B -> Prop) (l : list A) :
  (forall a b, R a b -> S (g a) (g b)) ->
  StronglySorted R l -> StronglySorted S (map g l).
Proof.
  intros Hg. induction 1 as [|a l Hl IH Ha]; cbn [map]; [constructor|].
  constructor; [done|]. apply Forall_forall. intros b Hb.
  apply list_elem_of_In, in_map_iff in Hb as (x & <- & Hx).
  rewrite Forall_forall in Ha. apply Hg, Ha. by apply list_elem_of_In.
Qed.

End OrderFacts.

Lemma call_in_success m c : c ∈ calls_of_success m -> call_of m c.
Proof.
  unfold calls_of_success, call_of.
  intros [Hin|Hin]%elem_of_app.
  { apply elem_of_cons in Hin as [->|?%elem_of_nil]; [by left|done]. }
  apply elem_of_app in Hin as [Hin|Hin].
  - apply list_elem_of_In, in_map_iff in Hin as (s & <- & Hs).
    do 4 right. exists s. split; [done|by apply list_elem_of_In].
  - apply elem_of_cons in Hin as [->|Hin]; [by do 3 right; left|].
    apply elem_of_cons in Hin as [->|?%elem_of_nil]; [by right; left|done].
Qed.

Lemma call_in_aborted m cs e c : aborted_calls m cs e -> c ∈ cs -> call_of m c.
Proof.
  intros [|before s after Hst| |] Hin.
  - apply elem_of_cons in Hin as [->|?%elem_of_nil]; [by left|done].
  - apply elem_of_app in Hin as [Hin|Hin].
    { apply elem_of_cons in Hin as [->|?%elem_of_nil]; [by left|done]. }
    apply elem_of_app in Hin as [Hin|Hin].
    + apply list_elem_of_In, in_map_iff in Hin as (x & <- & Hx).
      do 4 right. exists x. split; [done|].
      rewrite Hst. apply list_elem_of_In in Hx.
      apply elem_of_app in Hx as [Hx|Hx].
      * apply elem_of_app. by left.
      * apply elem_of_cons in Hx as [->|?%elem_of_nil]; [|done].
        apply elem_of_app. right. by left.
    + apply elem_of_cons in Hin as [->|?%elem_of_nil]; [|done].
      by do 2 right; left.
  - apply elem_of_app in Hin as [Hin|Hin].
    { apply elem_of_cons in Hin as [->|?%elem_of_nil]; [by left|done]. }
    apply elem_of_app in Hin as [Hin|Hin].
    + apply list_elem_of_In, in_map_iff in Hin as (x & <- & Hx).
      do 4 right. exists x. split; [done|by apply list_elem_of_In].
    + apply elem_of_cons in Hin as [->|Hin]; [by do 3 right; left|].
      apply elem_of_cons in Hin as [->|?%elem_of_nil]; [|done].
      by do 2 right; left.
  - by apply call_in_success.
Qed.

Lemma Forall2_elem_r {A B} (P : A -> B -> Prop) (l : list A) (k : list B) (y : B) :
  Forall2 P l k -> y ∈ k -> exists x, x ∈ l /\ P x y.
Proof.
  induction 1 as [|x y' l k Hxy _ IH]; [by intros ?%elem_of_nil|].
  intros [->|Hy]%elem_of_cons.
  - exists x. split; [by left|done].
  - destruct (IH Hy) as (x' & Hx' & HP). exists x'. split; [by right|done].
Qed.

Lemma loaded_from_file sortSlice files ms m :
  SortSliceContract sortSlice ->
  loadLocalMigrations sortSlice (Some files) = Ok ms ->
  m ∈ ms ->
  exists f, f ∈ files /\ load_entry f = Ok (Some m).
Proof.
  intros Hsort. unfold loadLocalMigrations.
  destruct (load_loop files []) as [parsed|] eqn:E; [|done].
  intros [= <-] Hm.
  destruct (Hsort parsed version_less) as [Hperm _].
  assert (Hp : m ∈ parsed).
  { apply list_elem_of_In. eapply Permutation_in; [exact Hperm|].
    by apply list_elem_of_In. }
  apply load_loop_Ok in E as (parsed' & -> & H2). cbn in Hp.
  destruct (Forall2_elem_r _ _ _ _ H2 Hp) as (f & Hf & Hfm).
  exists f. split; [|done].
  apply list_elem_of_In. apply list_elem_of_In, filter_In in Hf. by destruct Hf.
Qed.

(** The calls of [main]: the preparation, then calls of local migrations
    whose version was not among the rows of the ledger the run read. *)
Lemma main_calls_pending fails sortSlice files w :
  SortSliceContract sortSlice ->
  exists cs,
    calls (main fails sortSlice (Some files) w).2 = calls w ++ cs /\
    forall c, c ∈ cs ->
      c ∈ [CreateSchema; CreateTable; QueryLedger] \/
      exists f m,
        f ∈ files /\ load_entry f = Ok (Some m) /\
        (Version m ∉ map fst (rows_seen fails w)) /\
        call_of m c.
Proof.
  intros Hsort.
  pose proof (main_run fails sortSlice (Some files) w) as H. cbv zeta in H.
  assert (Hsetup : forall cs c,
            cs `prefix_of` [CreateSchema; CreateTable; QueryLedger] ->
            c ∈ cs -> c ∈ [CreateSchema; CreateTable; QueryLedger]).
  { intros cs c [k ->] Hin. apply elem_of_app. by left. }
  destruct H as [H|[H|[H|[(e0 & He0 & H)|(ms & Hms & H)]]]].
  - rewrite H. eexists. split; [done|]. intros c Hin. left.
    by apply (Hsetup [CreateSchema]); [eexists|].
  - rewrite H. eexists. split; [done|]. intros c Hin. left.
    by apply (Hsetup [CreateSchema; CreateTable]); [eexists|].
  - rewrite H. eexists. split; [done|]. intros c Hin. by left.
  - rewrite H. eexists. split; [done|]. intros c Hin. by left.
  - set (w0 := stopped w _ _) in H.
    set (applied := read_applied (rows_seen fails w)) in H.
    destruct (apply_loop_run fails applied ms w0)
      as (done & rest & cs & Hrec & _ & Hcalls & _ & Hend).
    exists ([CreateSchema; CreateTable; QueryLedger]
              ++ flat_map calls_of_success done ++ cs).
    split.
    { rewrite H. transitivity (calls (apply_loop fails applied ms w0).2).
      - by destruct (apply_loop fails applied ms w0).1.
      - rewrite Hcalls. unfold w0, stopped. cbn [calls].
        by rewrite <- !app_assoc. }
    intros c Hin.
    apply elem_of_app in Hin as [Hin|Hin]; [by left|]. right.
    assert (Hm : exists m, m ∈ reconcile applied ms /\ call_of m c).
    { apply elem_of_app in Hin as [Hin|Hin].
      - apply list_elem_of_In, in_flat_map in Hin as (m & Hm & Hin).
        exists m. split.
        + rewrite Hrec. apply elem_of_app. left. by apply list_elem_of_In.
        + by apply call_in_success, list_elem_of_In.
      - destruct (apply_loop fails applied ms w0).1 as [[]|e].
        + destruct Hend as [_ ->]. by apply elem_of_nil in Hin.
        + destruct Hend as (m & rest' & -> & Hab). exists m. split.
          * rewrite Hrec. apply elem_of_app. right. by left.
          * by apply (call_in_aborted m cs e). }
    destruct Hm as (m & Hm & Hcall).
    apply reconcile_elem in Hm as [Hin' Hnone].
    destruct (loaded_from_file sortSlice files ms m Hsort Hms Hin')
      as (f & Hf & Hfm).
    exists f, m. split_and!; try done.
    intros Hseen. apply read_applied_lookup in Hseen.
    unfold applied in Hnone. rewrite Hnone in Hseen. by destruct Hseen.
Qed.

Section NoOpenTransaction.

Variable fails : list Call -> Call -> bool.

Lemma apply_migration_closes m w :
  tx w = None -> tx (apply_migration fails m w).2 = None.
Proof.
  intros Htx. unfold apply_migration. unfold_M.
  destruct (fails (calls w) BeginTx); [done|].
  destruct (exec_statements_run fails (Statements m)
              (mkWorld (committed w) (Some (committed w))
                       (calls w ++ [BeginTx])
                       (out w ++ [OutApplying (Version m) (Name m)]))
              (committed w) eq_refl)
    as [H|(before & stmt & after & Hst & H)];
    rewrite H; cbn [committed tx calls out effects ledger]; [|done].
  destruct (fails _ (InsertLedger (ledger_row m)) || _); [done|].
  by destruct (fails _ Commit).
Qed.

Lemma apply_loop_closes applied ms w :
  tx w = None -> tx (apply_loop fails applied ms w).2 = None.
Proof.
  revert w; induction ms as [|m ms IH]; intros w Htx; [done|].
  cbn [apply_loop]. unfold mbind, M_bind, bind.
  destruct (applied !! Version m).
  - change (print (OutAlready (Version m) (Name m)) w)
      with (Returned tt,
            mkWorld (committed w) (tx w) (calls w)
                    (out w ++ [OutAlready (Version m) (Name m)])).
    cbv iota beta. by apply IH.
  - pose proof (apply_migration_closes m w Htx) as Hc.
    destruct (apply_migration fails m w) as [[[]|e] w']; [by apply IH|done].
Qed.

End NoOpenTransaction.

(** X6.  When the directory does not load, [main] panics before any
    transaction: the only calls are the preparation of the ledger and its
    [SELECT], nothing is committed, and only "Loading database state..." is
    printed.  The panic carries the error of the loader unless one of these
    calls failed first. *)
Theorem load_failure_stops_before_transactions
    (fails : list Call -> Call -> bool)
    (sortSlice : list Migration -> (Migration -> Migration -> bool) -> list Migration)
    (dir : option (list DirEntry)) (w : World) (e : error) :
  loadLocalMigrations sortSlice dir = Err e ->
  exists cs e',
    main fails sortSlice dir w = (Panicked e', stopped w cs [OutLoading]) /\
    ((cs = [CreateSchema] /\ e' = ErrCreateSchema) \/
     (cs = [CreateSchema; CreateTable] /\ e' = ErrCreateTable) \/
     (cs = [CreateSchema; CreateTable; QueryLedger] /\
      (e' = ErrDriver QueryLedger \/ e' = e))).
Proof.
  intros Hl. pose proof (main_run fails sortSlice dir w) as H. cbv zeta in H.
  destruct H as [H|[H|[H|[(e0 & He0 & H)|(ms & Hms & _)]]]].
  - eexists _, _. split; [exact H|]. by left.
  - eexists _, _. split; [exact H|]. right. by left.
  - eexists _, _. split; [exact H|]. right. right. split; [done|by left].
  - eexists _, _. split; [exact H|]. right. right. split; [done|].
    right. congruence.
  - congruence.
Qed.

Lemma load_failure_stops_before_transactions_witness :
  exists cs e',
    main never_fails insertionSort (Some unreadable_dir) fresh_world
      = (Panicked e', stopped fresh_world cs [OutLoading]).
Proof.
  destruct (load_failure_stops_before_transactions never_fails insertionSort
              (Some unreadable_dir) fresh_world
              (ErrReadFile (str "20240102000000_gone.sql")) eq_refl)
    as (cs & e' & H & _).
  by exists cs, e'.
Defined.

(** X7.  Whatever the driver does and however the run ends, [main] only adds
    to the committed store, and only whole migrations: there are local
    migrations [done], none of whose versions was in the ledger, such that
    the store is the old one with their statements appended to the effects
    and their rows appended to the ledger.  No row is removed or changed. *)
Theorem main_commits_whole_migrations
    (fails : list Call -> Call -> bool)
    (sortSlice : list Migration -> (Migration -> Migration -> bool) -> list Migration)
    (dir : option (list DirEntry)) (w : World) :
  let r := main fails sortSlice dir w in
  exists done,
    committed r.2 = fold_left applied_to done (committed w) /\
    effects (committed r.2) = effects (committed w) ++ flat_map Statements done /\
    ledger (committed r.2) = ledger (committed w) ++ map ledger_row done /\
    Forall (fun m =>
              (Version m ∉ map row_version (ledger (committed w))) /\
              exists ms, loadLocalMigrations sortSlice dir = Ok ms /\ m ∈ ms)
           done.
Proof.
  cbv zeta. pose proof (main_run fails sortSlice dir w) as H. cbv zeta in H.
  destruct H as [H|[H|[H|[(e0 & He0 & H)|(ms & Hms & H)]]]];
    try (rewrite H; exists []; cbn; by rewrite !app_nil_r).
  set (w0 := stopped w _ _) in H.
  set (applied := read_applied (rows_seen fails w)) in H.
  destruct (apply_loop_outcome fails applied ms w0)
    as (done & rest & cs & H1 & H2 & _ & Hall & _).
  exists done.
  assert (Hc : committed (main fails sortSlice dir w).2
               = fold_left applied_to done (committed w)).
  { rewrite H. by destruct (apply_loop _ _ _ _).1. }
  split_and!; [done|by rewrite Hc, effects_fold_applied_to
              |by rewrite Hc, ledger_fold_applied_to|].
  apply all_applied_fresh in Hall.
  apply Forall_forall. intros m Hm. split.
  - rewrite Forall_forall in Hall. by apply Hall.
  - exists ms. split; [done|].
    assert (Hr : m ∈ reconcile applied ms).
    { rewrite H1. apply elem_of_app. by left. }
    by apply reconcile_elem in Hr as [Hin _].
Qed.

(** X8.  Running again after a run that returned applies nothing when the
    second run reads the ledger to its end, whatever the driver does
    otherwise: nothing is committed, no transaction is begun, and if the
    second run returns it has reported every local migration as already
    applied. *)
Theorem second_run_applies_nothing
    (fails1 fails2 : list Call -> Call -> bool)
    (sortSlice : list Migration -> (Migration -> Migration -> bool) -> list Migration)
    (dir : option (list DirEntry)) (w : World) :
  let r1 := main fails1 sortSlice dir w in
  r1.1 = Returned tt ->
  reads_whole_ledger fails2 r1.2 ->
  let r2 := main fails2 sortSlice dir r1.2 in
  committed r2.2 = committed r1.2 /\
  (exists cs, calls r2.2 = calls r1.2 ++ cs /\
              cs `prefix_of` [CreateSchema; CreateTable; QueryLedger]) /\
  (r2.1 = Returned tt ->
   exists ms,
     loadLocalMigrations sortSlice dir = Ok ms /\
     out r2.2 = out r1.2 ++ OutLoading :: OutFound (length ms)
                  :: map (fun m => OutAlready (Version m) (Name m)) ms
                  ++ [OutAllApplied]).
Proof.
  cbv zeta. intros Hret Hwhole.
  pose proof (main_run fails1 sortSlice dir w) as H1. cbv zeta in H1.
  destruct H1 as [H|[H|[H|[(e0 & He0 & H)|(ms & Hms & H)]]]];
    try (rewrite H in Hret; discriminate Hret).
  set (w0 := stopped w _ _) in H.
  set (applied := read_applied (rows_seen fails1 w)) in H.
  destruct (apply_loop_run fails1 applied ms w0)
    as (done & rest & cs & Hrec & Hcom & _ & _ & Hend).
  assert (Hloop : (apply_loop fails1 applied ms w0).1 = Returned tt).
  { rewrite H in Hret.
    destruct (apply_loop fails1 applied ms w0).1 as [[]|]; done. }
  rewrite Hloop in Hend. destruct Hend as [-> _]. rewrite app_nil_r in Hrec.
  assert (Hc1 : committed (main fails1 sortSlice dir w).2
                = fold_left applied_to done (committed w)).
  { rewrite H, Hloop. exact Hcom. }
  set (r1 := main fails1 sortSlice dir w) in *.
  assert (Hall : Forall (fun m =>
            is_Some (read_applied (rows_seen fails2 r1.2) !! Version m)) ms).
  { apply Forall_forall. intros m Hm.
    apply read_applied_lookup. rewrite Hwhole.
    unfold ledger_pairs. rewrite map_map. cbn [fst].
    change (Version m ∈ map row_version (ledger (committed r1.2))).
    rewrite Hc1, ledger_fold_applied_to, map_app. apply elem_of_app.
    destruct (applied !! Version m) eqn:Ea.
    - left. assert (Hs : is_Some (applied !! Version m)) by (by eexists).
      apply read_applied_lookup in Hs. by apply (rows_seen_in_ledger fails1).
    - right. rewrite map_map. cbn [ledger_row row_version].
      apply list_elem_of_In, in_map. apply list_elem_of_In.
      rewrite <- Hrec. by apply reconcile_elem. }
  pose proof (main_run fails2 sortSlice dir r1.2) as H2. cbv zeta in H2.
  destruct H2 as [H2|[H2|[H2|[(e0 & He0 & H2)|(ms' & Hms' & H2)]]]].
  - rewrite H2. cbn. split_and!; [done| |done].
    eexists. split; [done|]. by eexists.
  - rewrite H2. cbn. split_and!; [done| |done].
    eexists. split; [done|]. by eexists.
  - rewrite H2. cbn. split_and!; [done| |done].
    eexists. split; [done|]. by exists [].
  - congruence.
  - assert (ms' = ms) as -> by congruence.
    rewrite (apply_loop_all_applied fails2 _ ms _ Hall) in H2.
    rewrite H2. cbn. split_and!; [done| |].
    + eexists. split; [done|]. by exists [].
    + intros _. exists ms. split; [done|]. by rewrite <- !app_assoc.
Qed.

Lemma second_run_applies_nothing_witness :
  let r1 := main never_fails insertionSort (Some [users_file]) fresh_world in
  let r2 := main never_fails insertionSort (Some [users_file]) r1.2 in
  r1.1 = Returned tt /\ reads_whole_ledger never_fails r1.2 /\
  committed r2.2 = committed r1.2.
Proof.
  cbv zeta. split; [vm_compute; reflexivity|].
  split; [vm_compute; reflexivity|].
  exact (proj1 (second_run_applies_nothing never_fails never_fails
                  insertionSort (Some [users_file]) fresh_world
                  ltac:(vm_compute; reflexivity)
                  ltac:(vm_compute; reflexivity))).
Defined.

(** X10.  Every statement [main] sends to the database is a statement of a
    file of the directory whose version was not among the rows of the ledger
    the run read, hence not in the ledger when the run read it to its end;
    the statement is not empty and has no white space at either end. *)
Theorem main_sends_statements_of_pending_files
    (fails : list Call -> Call -> bool)
    (sortSlice : list Migration -> (Migration -> Migration -> bool) -> list Migration)
    (files : list DirEntry) (w : World) :
  SortSliceContract sortSlice ->
  exists cs,
    calls (main fails sortSlice (Some files) w).2 = calls w ++ cs /\
    forall stmt, ExecStmt stmt ∈ cs ->
      stmt <> [] /\ TrimSpace stmt = stmt /\
      exists f m,
        f ∈ files /\ load_entry f = Ok (Some m) /\ stmt ∈ Statements m /\
        (Version m ∉ map fst (rows_seen fails w)) /\
        (reads_whole_ledger fails w ->
         Version m ∉ map row_version (ledger (committed w))).
Proof.
  intros Hsort.
  destruct (main_calls_pending fails sortSlice files w Hsort) as (cs & Hcs & H).
  exists cs. split; [done|]. intros stmt Hin.
  destruct (H _ Hin) as [Hs|(f & m & Hf & Hfm & Hv & Hcall)].
  { repeat (apply elem_of_cons in Hs as [?|Hs]; [done|]).
    by apply elem_of_nil in Hs. }
  destruct Hcall as [?|[?|[?|[?|(s' & [= <-] & Hstmt)]]]]; try done.
  destruct (loaded_statement_trimmed f m stmt Hfm Hstmt) as [? ?].
  split_and!; [done|done|]. exists f, m. split_and!; try done.
  intros Hwhole. rewrite Hwhole in Hv. unfold ledger_pairs in Hv.
  by rewrite map_map in Hv.
Qed.

Lemma main_sends_statements_of_pending_files_witness :
  exists cs,
    calls (main never_fails insertionSort (Some mixed_dir) fresh_world).2
      = calls fresh_world ++ cs /\
    forall stmt, ExecStmt stmt ∈ cs -> stmt <> [].
Proof.
  destruct (main_sends_statements_of_pending_files never_fails insertionSort
              mixed_dir fresh_world insertionSort_contract) as (cs & Hcs & H).
  exists cs. split; [exact Hcs|]. intros stmt Hin. by destruct (H stmt Hin).
Defined.

(** X11.  The migrations [main] begins are begun in ascending order of
    version: the versions announced by "Applying pending migration" are
    sorted. *)
Theorem migrations_begun_in_ascending_order
    (fails : list Call -> Call -> bool)
    (sortSlice : list Migration -> (Migration -> Migration -> bool) -> list Migration)
    (dir : option (list DirEntry)) (w : World) :
  SortSliceContract sortSlice ->
  exists begun,
    announced (out (main fails sortSlice dir w).2) = announced (out w) ++ begun /\
    ascending (map fst begun).
Proof.
  intros Hsort.
  pose proof (main_run fails sortSlice dir w) as H. cbv zeta in H.
  destruct H as [H|[H|[H|[(e0 & He0 & H)|(ms & Hms & H)]]]];
    try (rewrite H; exists []; cbn [snd stopped out];
         rewrite announced_app; split; [done|constructor]).
  set (w0 := stopped w _ _) in H.
  set (applied := read_applied (rows_seen fails w)) in H.
  destruct (apply_loop_run fails applied ms w0)
    as (done & rest & cs & Hrec & _ & _ & Hann & _).
  exists (map (fun m => (Version m, Name m)) (done ++ take 1 rest)). split.
  - rewrite H.
    transitivity (announced (out (apply_loop fails applied ms w0).2)).
    + destruct (apply_loop fails applied ms w0).1; cbn [snd out]; [|done].
      rewrite announced_app. cbn. by rewrite app_nil_r.
    + rewrite Hann. unfold w0, stopped. cbn [out].
      rewrite announced_app. cbn. by rewrite app_nil_r.
  - rewrite map_map. cbn [fst]. unfold ascending.
    apply (StronglySorted_map_of (fun a b => version_less b a = false)); [done|].
    apply (StronglySorted_front _ _ (drop 1 rest)).
    rewrite <- app_assoc, take_drop, <- Hrec.
    apply StronglySorted_filter_keeps.
    unfold loadLocalMigrations in Hms. destruct dir as [files|]; [|done].
    destruct (load_loop files []) as [parsed|]; [|done].
    injection Hms as <-.
    apply (Hsort parsed version_less), version_less_swo.
Qed.

Lemma migrations_begun_in_ascending_order_witness :
  exists begun,
    announced (out (main never_fails insertionSort two_versions fresh_world).2)
      = announced (out fresh_world) ++ begun /\
    ascending (map fst begun).
Proof.
  exact (migrations_begun_in_ascending_order never_fails insertionSort
           two_versions fresh_world insertionSort_contract).
Defined.

(** X12.  The map [applied] holds, for each version, the hash of the last
    row of that version the [SELECT] returned, and nothing for a version
    without row. *)
Theorem applied_holds_last_hash
    (rows : list (gostring * gostring)) (v : gostring) :
  read_applied rows !! v =
  snd <$> last (List.filter (fun r => bool_decide (r.1 = v)) rows).
Proof.
  unfold read_applied. rewrite read_applied_fold_last, lookup_empty.
  by destruct (last _).
Qed.

(** X13.  The ledger encoder loses nothing: different lists of statements
    have different encodings. *)
Theorem array_encoding_injective (arr1 arr2 : list gostring) :
  arr1 <> arr2 -> formatPostgresArray arr1 <> formatPostgresArray arr2.
Proof.
  intros Hne H. apply Hne. apply (f_equal parsePostgresArray) in H.
  rewrite !parse_formatted in H. by injection H.
Qed.

Lemma array_encoding_injective_witness :
  formatPostgresArray [str "a,b"] <> formatPostgresArray [str "a"; str "b"].
Proof. by apply array_encoding_injective. Defined.

(** X15.  [main] leaves no transaction open: started without one, it ends
    without one, however it ends. *)
Theorem main_leaves_no_transaction_open
    (fails : list Call -> Call -> bool)
    (sortSlice : list Migration -> (Migration -> Migration -> bool) -> list Migration)
    (dir : option (list DirEntry)) (w : World) :
  tx w = None -> tx (main fails sortSlice dir w).2 = None.
Proof.
  intros Htx. pose proof (main_run fails sortSlice dir w) as H. cbv zeta in H.
  destruct H as [H|[H|[H|[(e0 & He0 & H)|(ms & Hms & H)]]]];
    try (by rewrite H).
  rewrite H. set (w0 := stopped w _ _).
  pose proof (apply_loop_closes fails
                (read_applied (rows_seen fails w)) ms w0 Htx) as Hl.
  by destruct (apply_loop _ _ _ _).1.
Qed.

Lemma main_leaves_no_transaction_open_witness :
  let r := main (fails_on (str "CREATE TABEL u;")) insertionSort
             (Some [users_file; broken_file; later_file]) fresh_world in
  (exists e, r.1 = Panicked e) /\ tx r.2 = None.
Proof.
  cbv zeta. split; [eexists; vm_compute; reflexivity|].
  by apply main_leaves_no_transaction_open.
Defined.

(** X16.  Every row [main] inserts into the ledger describes a file of the
    directory whose version was not among the rows of the ledger the run
    read, hence not in the ledger when the run read it to its end: version
    and name are the two parts of the file name, the hash is the hash of the
    content, the statements column reads back as the statements of the file,
    the writer is ["supabase-direct-migrate"] and the idempotency key is
    null. *)
Theorem main_inserts_rows_of_pending_files
    (fails : list Call -> Call -> bool)
    (sortSlice : list Migration -> (Migration -> Migration -> bool) -> list Migration)
    (files : list DirEntry) (w : World) :
  SortSliceContract sortSlice ->
  exists cs,
    calls (main fails sortSlice (Some files) w).2 = calls w ++ cs /\
    forall row, InsertLedger row ∈ cs ->
      (row_version row ∉ map fst (rows_seen fails w)) /\
      (reads_whole_ledger fails w ->
       row_version row ∉ map row_version (ledger (committed w))) /\
      row_created_by row = Some (str "supabase-direct-migrate") /\
      row_idempotency_key row = None /\
      exists f m,
        f ∈ files /\ load_entry f = Ok (Some m) /\
        entry_name f = row_version row ++ str "_" ++ row_name row /\
        Some (row_hash row) = computeHash <$> entry_data f /\
        parsePostgresArray (row_statements row) = Some (Statements m).
Proof.
  intros Hsort.
  destruct (main_calls_pending fails sortSlice files w Hsort) as (cs & Hcs & H).
  exists cs. split; [done|]. intros row Hin.
  destruct (H _ Hin) as [Hs|(f & m & Hf & Hfm & Hv & Hcall)].
  { repeat (apply elem_of_cons in Hs as [?|Hs]; [done|]).
    by apply elem_of_nil in Hs. }
  destruct Hcall as [?|[?|[?|[[= ->]|(s' & ? & _)]]]]; try done.
  split_and!; [done| |done|done|].
  { intros Hwhole. cbn [ledger_row row_version]. rewrite Hwhole in Hv.
    unfold ledger_pairs in Hv. by rewrite map_map in Hv. }
  exists f, m. split_and!; [done|done|..].
  - by destruct (load_entry_name f m Hfm).
  - destruct (load_entry_Some f m Hfm) as (_ & _ & -> & _ & _ & Hh).
    cbn. by rewrite Hh.
  - apply parse_formatted.
Qed.

Lemma main_inserts_rows_of_pending_files_witness :
  exists cs,
    calls (main never_fails insertionSort (Some mixed_dir) fresh_world).2
      = calls fresh_world ++ cs /\
    forall row, InsertLedger row ∈ cs -> row_idempotency_key row = None.
Proof.
  destruct (main_inserts_rows_of_pending_files never_fails insertionSort
              mixed_dir fresh_world insertionSort_contract) as (cs & Hcs & H).
  exists cs. split; [exact Hcs|]. intros row Hin.
  by destruct (H row Hin) as (_ & _ & _ & ? & _).
Defined.

(** X17.  The errors of the loader: the directory cannot be read; or a
    [.sql] file cannot be read; or a [.sql] file that can be read has no
    underscore in its name.  The file is read before its name is looked at,
    so an unreadable file gives the read error whatever its name. *)
Theorem loader_errors
    (sortSlice : list Migration -> (Migration -> Migration -> bool) -> list Migration)
    (dir : option (list DirEntry)) (e : error) :
  loadLocalMigrations sortSlice dir = Err e ->
  (dir = None /\ e = ErrReadDir) \/
  exists files f,
    dir = Some files /\ f ∈ files /\ is_migration_file f = true /\
    ((entry_data f = None /\ e = ErrReadFile (entry_name f)) \/
     (is_Some (entry_data f) /\ ("_"%char ∉ entry_name f) /\
      e = ErrInvalidName (entry_name f))).
Proof.
  unfold loadLocalMigrations. destruct dir as [files|].
  2:{ intros [= <-]. by left. }
  destruct (load_loop files []) as [parsed|e'] eqn:E; [done|].
  intros [= ->]. right.
  apply load_loop_Err in E as (pre & f & post & -> & _ & Hf).
  exists (pre ++ f :: post), f. split; [done|].
  split; [apply elem_of_app; right; by left|].
  unfold is_migration_file. unfold load_entry in Hf.
  destruct (entry_is_dir f || negb (HasSuffix (entry_name f) (str ".sql")));
    [done|].
  split; [done|].
  destruct (entry_data f) as [raw|].
  - right. split; [by eexists|].
    destruct (SplitN_underscore (entry_name f)) as [Hin Hnin].
    destruct (decide ("_"%char ∈ entry_name f)) as [Hu|Hu].
    + destruct (Hin Hu) as (k & _ & Hs). by rewrite Hs in Hf.
    + rewrite (Hnin Hu) in Hf. by injection Hf as <-.
  - left. by injection Hf as <-.
Qed.

Lemma loader_errors_witness :
  exists f,
    f ∈ unreadable_dir /\ entry_data f = None /\
    loadLocalMigrations insertionSort (Some unreadable_dir)
      = Err (ErrReadFile (entry_name f)).
Proof.
  destruct (loader_errors insertionSort (Some unreadable_dir)
              (ErrReadFile (str "20240102000000_gone.sql")) eq_refl)
    as [[H _]|(files & f & [= <-] & Hf & _ & [[Hd He]|(_ & _ & He)])];
    [discriminate H| |discriminate He].
  exists f. split; [exact Hf|]. split; [exact Hd|].
  by rewrite <- He.
Defined.
